(** * Timeline items of SIFT: tracks and frames (sift/view/TimelineItems.py)

    A shallow embedding of [QTrackItem] and [QFrameItem]: layout of a track
    from the frames it owns, placement of frames inside their track, the
    display state of a frame, and the drag-and-drop handlers of a track.

    Python objects live in a store indexed by locations; a method is a
    computation over that store which may raise.  What the methods ask of Qt
    or of the logger is recorded in a trace. *)

From Stdlib Require Import ZArith Lia.
From Stdlib Require Import Floats.PrimFloat Floats.SpecFloat Floats.FloatOps.
From stdpp Require Import base option list gmap strings.

Local Open Scope Z_scope.

(** ** Values *)

(** A [datetime] is the count of microseconds since [datetime.min], the
    first instant of year 1, and a [timedelta] a count of microseconds, the
    resolution of Python's types.  Both types are bounded: arithmetic whose
    result leaves the range raises [OverflowError]. *)
Abbreviation datetime := Z (only parsing).
Abbreviation timedelta := Z (only parsing).
Abbreviation UUID := N (only parsing).
Abbreviation loc := nat (only parsing).

(** [timedelta(hours=h, minutes=m)] *)
Definition timedelta_of (hours minutes : Z) : timedelta :=
  (hours * 3600 + minutes * 60) * 1000000.

(** [datetime.max], the last microsecond of year 9999. *)
Definition datetime_max : datetime := 315537897599999999.

Definition is_datetime (t : Z) : bool := (0 <=? t) && (t <=? datetime_max).

(** [timedelta.min] and [timedelta.max]. *)
Definition timedelta_min : timedelta := -86399999913600000000.
Definition timedelta_max : timedelta := 86399999999999999999.

Definition is_timedelta (d : Z) : bool :=
  (timedelta_min <=? d) && (d <=? timedelta_max).

(** The double nearest to an integer, ties to even; an infinity beyond the
    range of doubles. *)
Definition nearest_double (z : Z) : float :=
  SF2Prim (binary_normalize prec emax z 0 false).

Record QPointF := mkQPointF { px : float; py : float }.

(** [QRectF(x, y, w, h)] *)
Record QRectF := mkQRectF { rx : float; ry : float; rw : float; rh : float }.

Definition QRectF_right (r : QRectF) : float := (rx r + rw r)%float.

(** [QRectF()] and the initial position of a graphics item. *)
Definition QRectF_null : QRectF := mkQRectF 0 0 0 0.
Definition QPointF_origin : QPointF := mkQPointF 0 0.

(** Modelled from the spec: the members of [TimelineFrameState], an enum of
    sift.view.TimelineCommon, which is not among the sources. *)
Inductive TimelineFrameState :=
  UNKNOWN | AVAILABLE | READY | CURRENT | MISSING | ERROR.

#[global] Instance TimelineFrameState_eq_dec : EqDecision TimelineFrameState.
Proof. solve_decision. Defined.

(** Modelled from the spec: the attributes of [TimelineCoordTransform], a
    class of sift.view.TimelineCommon, which is not among the sources.  Its
    methods are parameters of the development below. *)
Record TimelineCoordTransform := mkTransform {
  origin_time : datetime;
  pixels_per_second : float
}.

(** ** Objects *)

(** Attributes that hold Qt resources (icon, colour, colormap, decoration
    items), the tooltip, the metadata mapping and the weak reference to the
    scene take no part in layout or in the drag protocol and are left out. *)
Module QTrackItem.
Record t := mk {
  frames : list loc;
  _scale : TimelineCoordTransform;
  _uuid : UUID;
  _z : Z;
  _title : string;
  _subtitle : option string;
  _selected : bool;
  _min : option float;
  _max : option float;
  _dragging : bool;
  _bounds : QRectF;
  pos : QPointF
}.

Definition with_dragging (b : bool) (tr : t) : t :=
  mk (frames tr) (_scale tr) (_uuid tr) (_z tr) (_title tr) (_subtitle tr)
     (_selected tr) (_min tr) (_max tr) b (_bounds tr) (pos tr).

Definition with_bounds (r : QRectF) (tr : t) : t :=
  mk (frames tr) (_scale tr) (_uuid tr) (_z tr) (_title tr) (_subtitle tr)
     (_selected tr) (_min tr) (_max tr) (_dragging tr) r (pos tr).

Definition with_pos (p : QPointF) (tr : t) : t :=
  mk (frames tr) (_scale tr) (_uuid tr) (_z tr) (_title tr) (_subtitle tr)
     (_selected tr) (_min tr) (_max tr) (_dragging tr) (_bounds tr) p.

(** Class attributes. *)
Definition _left_pad : timedelta := timedelta_of 1 0.
Definition _right_pad : timedelta := timedelta_of 0 5.
End QTrackItem.

Module QFrameItem.
Record t := mk {
  _state : TimelineFrameState;
  _track : loc;
  _scale : TimelineCoordTransform;
  _uuid : UUID;
  _start : datetime;
  _duration : timedelta;
  _title : string;
  _subtitle : option string;
  _bounds : QRectF;
  pos : QPointF
}.

Definition with_state (s : TimelineFrameState) (f : t) : t :=
  mk s (_track f) (_scale f) (_uuid f) (_start f) (_duration f) (_title f)
     (_subtitle f) (_bounds f) (pos f).

Definition with_pos (p : QPointF) (f : t) : t :=
  mk (_state f) (_track f) (_scale f) (_uuid f) (_start f) (_duration f)
     (_title f) (_subtitle f) (_bounds f) p.

Definition with_bounds (r : QRectF) (f : t) : t :=
  mk (_state f) (_track f) (_scale f) (_uuid f) (_start f) (_duration f)
     (_title f) (_subtitle f) r (pos f).

(** Properties [t], [d] and [td]. *)
Definition t_ (f : t) : datetime := _start f.
Definition d_ (f : t) : timedelta := _duration f.
Definition td (f : t) : datetime * timedelta := (_start f, _duration f).
End QFrameItem.

(** ** Store, trace and the method monad *)

Inductive item := TrackItem (l : loc) | FrameItem (l : loc).

Inductive log_level := DEBUG | INFO | WARNING.

Inductive effect :=
  | Log (lvl : log_level) (msg : string)
  | PrepareGeometryChange (it : item)
  | Update (it : item).

(** [NoSuchItem] marks a location with no object behind it; Python has no
    such reference, and the theorems are about stores where every location
    in use is populated. *)
Inductive exn := TypeError | OverflowError | UnpicklingError | NoSuchItem.

Inductive outcome (A : Type) :=
  | Ret (a : A)
  | Raise (e : exn).
Arguments Ret {A} a.
Arguments Raise {A} e.

Record world := mkWorld {
  tracks : gmap loc QTrackItem.t;
  frame_items : gmap loc QFrameItem.t;
  trace : list effect
}.

Definition M (A : Type) : Type := world -> outcome A * world.

Definition ret {A} (a : A) : M A := fun w => (Ret a, w).

Definition bind {A B} (m : M A) (k : A -> M B) : M B :=
  fun w => match m w with
           | (Ret a, w') => k a w'
           | (Raise e, w') => (Raise e, w')
           end.

Definition raise {A} (e : exn) : M A := fun w => (Raise e, w).

Declare Scope method_scope.
Delimit Scope method_scope with method.
Notation "'let*' x ':=' m 'in' k" := (bind m (fun x => k))
  (at level 10, x pattern, m at level 100, k at level 200) : method_scope.
Notation "m ';;' k" := (bind m (fun _ => k))
  (at level 100, k at level 200, right associativity) : method_scope.
Local Open Scope method_scope.

(** [datetime + timedelta] and [datetime - timedelta] *)
Definition datetime_add (t : datetime) (d : timedelta) : M datetime :=
  if is_datetime (t + d) then ret (t + d) else raise OverflowError.

Definition datetime_sub (t : datetime) (d : timedelta) : M datetime :=
  if is_datetime (t - d) then ret (t - d) else raise OverflowError.

(** [timedelta + timedelta] *)
Definition timedelta_add (a b : timedelta) : M timedelta :=
  if is_timedelta (a + b) then ret (a + b) else raise OverflowError.

(** [datetime - datetime]: the difference of two datetimes always is a
    timedelta, whose range is the wider. *)
Definition datetime_diff (e s : datetime) : timedelta := e - s.

(** Conversion of a Python [int] operand of a float operation: the nearest
    double, and [OverflowError] where that is beyond the range of doubles. *)
Definition float_of_int (z : Z) : M float :=
  if is_infinity (nearest_double z) then raise OverflowError
  else ret (nearest_double z).

Definition emit (e : effect) : M unit :=
  fun w => (Ret tt, mkWorld (tracks w) (frame_items w) (trace w ++ [e])).

Definition get_track (l : loc) : M QTrackItem.t :=
  fun w => match tracks w !! l with
           | Some tr => (Ret tr, w)
           | None => (Raise NoSuchItem, w)
           end.

Definition get_frame (l : loc) : M QFrameItem.t :=
  fun w => match frame_items w !! l with
           | Some f => (Ret f, w)
           | None => (Raise NoSuchItem, w)
           end.

Definition put_track (l : loc) (tr : QTrackItem.t) : M unit :=
  fun w => (Ret tt, mkWorld (<[l := tr]> (tracks w)) (frame_items w) (trace w)).

Definition put_frame (l : loc) (f : QFrameItem.t) : M unit :=
  fun w => (Ret tt, mkWorld (tracks w) (<[l := f]> (frame_items w)) (trace w)).

(** Attribute assignment on the object at a location. *)
Definition modify_track (l : loc) (g : QTrackItem.t -> QTrackItem.t) : M unit :=
  let* tr := get_track l in put_track l (g tr).

Definition modify_frame (l : loc) (g : QFrameItem.t -> QFrameItem.t) : M unit :=
  let* f := get_frame l in put_frame l (g f).

(** ** QTrackItem: extent, position and bounds *)

Section Layout.

(** Parameters from sift.view.TimelineCommon: the track height and the
    transform's [calc_pixel_x_pos(t, d=None)], which gives the scene x of a
    time and the scene width of a duration. *)
Variable DEFAULT_TRACK_HEIGHT : float.
Variable calc_pixel_x_pos :
  TimelineCoordTransform -> datetime -> option timedelta -> float * float.

Definition _iter_frame_children (self : loc) : M (list loc) :=
  let* tr := get_track self in ret (QTrackItem.frames tr).

(** The loop of [time_extent_of_frames] over the remaining children, with
    the running [s] and [e]. *)
Fixpoint extent_loop (children : list loc)
    (s e : option datetime) : M (option datetime * option datetime) :=
  match children with
  | [] => ret (s, e)
  | child :: rest =>
      let* f := get_frame child in
      let '(t, d) := QFrameItem.td f in
      let s' := match s with None => t | Some s0 => Z.min t s0 end in
      let* e' := match e with
                 | None => datetime_add t d
                 | Some e0 => let* td := datetime_add t d in ret (Z.max e0 td)
                 end in
      extent_loop rest (Some s') (Some e')
  end.

Definition time_extent_of_frames (self : loc)
    : M (option datetime * option timedelta) :=
  let* children := _iter_frame_children self in
  let* se := extent_loop children None None in
  match se with
  | (_, None) =>
      emit (Log INFO "empty track cannot determine its horizontal extent");;
      ret (None, None)
  | (Some s, Some e) => ret (Some s, Some (datetime_diff e s))
  | (None, Some _) => raise TypeError
  end.

Definition setPos_track (self : loc) (x y : float) : M unit :=
  modify_track self (QTrackItem.with_pos (mkQPointF x y)).

Definition update_pos_bounds (self : loc) : M unit :=
  let* td := time_extent_of_frames self in
  match td with
  | (Some t, Some d) =>
      let* tr := get_track self in
      let* z := float_of_int (QTrackItem._z tr) in
      let top := (z * DEFAULT_TRACK_HEIGHT)%float in
      let '(frames_left, frames_width) :=
        calc_pixel_x_pos (QTrackItem._scale tr) t (Some d) in
      let* t_padded := datetime_sub t QTrackItem._left_pad in
      let* d_left := timedelta_add d QTrackItem._left_pad in
      let* d_padded := timedelta_add d_left QTrackItem._right_pad in
      let '(track_left, track_width) :=
        calc_pixel_x_pos (QTrackItem._scale tr) t_padded (Some d_padded) in
      emit (PrepareGeometryChange (TrackItem self));;
      setPos_track self frames_left (top + DEFAULT_TRACK_HEIGHT / 2)%float;;
      modify_track self
        (QTrackItem.with_bounds
           (mkQRectF (track_left - frames_left)%float
                     (- DEFAULT_TRACK_HEIGHT / 2)%float
                     track_width
                     DEFAULT_TRACK_HEIGHT))
  | _ =>
      emit (Log DEBUG
        "no frames contained, cannot adjust size or location of QTrackItem");;
      ret tt
  end.

Definition setPos_frame (frame : loc) (x y : float) : M unit :=
  modify_frame frame (QFrameItem.with_pos (mkQPointF x y)).

(** The loop of [update_frame_positions]. *)
Fixpoint position_loop (self : loc) (myx : float) (frames : list loc) : M unit :=
  match frames with
  | [] => ret tt
  | frame :: rest =>
      let* tr := get_track self in
      let* f := get_frame frame in
      let '(x, _) := calc_pixel_x_pos (QTrackItem._scale tr) (QFrameItem.t_ f) None in
      emit (PrepareGeometryChange (FrameItem frame));;
      setPos_frame frame (x - myx)%float 0%float;;
      position_loop self myx rest
  end.

(** [update_frame_positions(self, *frames)]: an empty argument tuple
    stands for all the children. *)
Definition update_frame_positions (self : loc) (frames : list loc) : M unit :=
  let* tr := get_track self in
  let myx := px (QTrackItem.pos tr) in
  let* frames := match frames with
                 | [] => _iter_frame_children self
                 | _ :: _ => ret frames
                 end in
  position_loop self myx frames.

End Layout.

(** ** QFrameItem: display state *)

Definition state (self : loc) : M TimelineFrameState :=
  let* f := get_frame self in ret (QFrameItem._state f).

(** The setter of the [state] property. *)
Definition state_setter (self : loc) (new_state : TimelineFrameState) : M unit :=
  let* f := get_frame self in
  if bool_decide (new_state <> QFrameItem._state f) then
    modify_frame self (QFrameItem.with_state new_state);;
    emit (Update (FrameItem self))
  else ret tt.

(** ** QFrameItem: bounds *)

Section FrameBounds.

(** Parameters: the frame height and the transform's [calc_pixel_duration],
    both of sift.view.TimelineCommon, and Qt's [!=] on [QRectF]. *)
Variable DEFAULT_FRAME_HEIGHT : float.
Variable calc_pixel_duration : TimelineCoordTransform -> timedelta -> float.
Variable QRectF_ne : QRectF -> QRectF -> bool.

(** [_bounds] always holds a rectangle, so [old_bounds is None] is false.
    The debug line is recorded by its template. *)
Definition update_bounds (self : loc) : M unit :=
  let* f := get_frame self in
  let left := 0%float in
  let top := (- DEFAULT_FRAME_HEIGHT / 2)%float in
  let height := DEFAULT_FRAME_HEIGHT in
  let width := calc_pixel_duration (QFrameItem._scale f) (QFrameItem._duration f) in
  emit (Log DEBUG "width for {} is {} scene pixels");;
  let old_bounds := QFrameItem._bounds f in
  let new_bounds := mkQRectF left top width height in
  if QRectF_ne new_bounds old_bounds then
    emit (PrepareGeometryChange (FrameItem self));;
    modify_frame self (QFrameItem.with_bounds new_bounds)
  else ret tt.

End FrameBounds.

(** ** QTrackItem: drag and drop *)

(** [QMimeData]: the data carried for each format. *)
Record QMimeData := mkMimeData { mime_data : gmap string (list Byte.byte) }.

Definition hasFormat (m : QMimeData) (mimetype : string) : bool :=
  bool_decide (is_Some (mime_data m !! mimetype)).

(** [QMimeData.data(mimetype)] takes exactly one argument; PyQt raises
    [TypeError] on any other argument count. *)
Definition QMimeData_data (m : QMimeData) (args : list string) : M (list Byte.byte) :=
  match args with
  | [mimetype] => ret (default [] (mime_data m !! mimetype))
  | _ => raise TypeError
  end.

Record QGraphicsSceneDragDropEvent := mkDragDropEvent {
  mimeData : QMimeData;
  isAccepted : bool
}.

Definition setAccepted (b : bool) (event : QGraphicsSceneDragDropEvent)
    : QGraphicsSceneDragDropEvent :=
  mkDragDropEvent (mimeData event) b.

Section DragDrop.

(** Parameters from sift.view.TimelineCommon: the two payload kinds, the
    objects that payloads decode to, [recv_mime(event, mimetype)] and the
    [pkl] module's [loads], which raises on data it cannot decode.
    [recv_mime] is handed the event object: it returns an object or [None],
    or raises, and gives the event as it leaves it. *)
Variable MIMETYPE_TIMELINE_COLORMAP : string.
Variable MIMETYPE_TIMELINE_TRACK : string.
Variable PyObject : Type.
Variable recv_mime :
  QGraphicsSceneDragDropEvent -> string ->
  outcome (option PyObject) * QGraphicsSceneDragDropEvent.
Variable pkl_loads : list Byte.byte -> option PyObject.

(** A call of [recv_mime]: the result and the event after the call. *)
Definition call_recv_mime (event : QGraphicsSceneDragDropEvent) (mimetype : string)
    : M (option PyObject * QGraphicsSceneDragDropEvent) :=
  fun w => match recv_mime event mimetype with
           | (Ret r, event') => (Ret (r, event'), w)
           | (Raise e, _) => (Raise e, w)
           end.

Definition set_colormap (self : loc) (cmap : PyObject) : M unit :=
  emit (Log WARNING "set colormap from dragged colormap not yet implemented").

Definition insert_track_before (self : loc) (track : PyObject) : M unit :=
  emit (Log WARNING "reorder tracks usingdragged track not yet implemented").

(** The handlers receive the event object and change its accepted flag;
    they return the event as they leave it. *)
Definition dragEnterEvent (self : loc) (event : QGraphicsSceneDragDropEvent)
    : M QGraphicsSceneDragDropEvent :=
  modify_track self (QTrackItem.with_dragging true);;
  let mime := mimeData event in
  if hasFormat mime MIMETYPE_TIMELINE_COLORMAP then
    ret (setAccepted true event)
  else if hasFormat mime MIMETYPE_TIMELINE_TRACK then
    ret (setAccepted true event)
  else
    ret (setAccepted false event).

Definition dragLeaveEvent (self : loc) (event : QGraphicsSceneDragDropEvent)
    : M QGraphicsSceneDragDropEvent :=
  modify_track self (QTrackItem.with_dragging false);;
  ret event.

Definition dropEvent (self : loc) (event : QGraphicsSceneDragDropEvent)
    : M QGraphicsSceneDragDropEvent :=
  let* (colormap, event) := call_recv_mime event MIMETYPE_TIMELINE_COLORMAP in
  match colormap with
  | Some cmap =>
      set_colormap self cmap;;
      ret event
  | None =>
      let* (new_track_before, event) :=
        call_recv_mime event MIMETYPE_TIMELINE_TRACK in
      match new_track_before with
      | Some track => insert_track_before self track
      | None => ret tt
      end;;
      let* raw := QMimeData_data (mimeData event) [] in
      match pkl_loads raw with
      | Some content => ret (setAccepted false event)
      | None => raise UnpicklingError
      end
  end.

(** Qt's scene hands a drop to an item only if the item accepted the drag
    when it entered: [entered] is the event as [dragEnterEvent] left it and
    [event] the drop. *)
Definition scene_deliver_drop (self : loc)
    (entered event : QGraphicsSceneDragDropEvent)
    : M QGraphicsSceneDragDropEvent :=
  if isAccepted entered then dropEvent self event else ret event.

End DragDrop.

(** ** Vocabulary of the statements *)

(** Every frame location of a list is populated, with these records. *)
Definition resolves (w : world) (ls : list loc) (fs : list QFrameItem.t) : Prop :=
  Forall2 (fun l f => frame_items w !! l = Some f) ls fs.

Definition starts (fs : list QFrameItem.t) : list datetime :=
  map QFrameItem._start fs.

Definition ends (fs : list QFrameItem.t) : list datetime :=
  map (fun f => QFrameItem._start f + QFrameItem._duration f) fs.

Definition is_min_of (m : Z) (l : list Z) : Prop :=
  m ∈ l /\ forall x, x ∈ l -> m <= x.

Definition is_max_of (m : Z) (l : list Z) : Prop :=
  m ∈ l /\ forall x, x ∈ l -> x <= m.

(** The running values of the loop, without the store. *)
Fixpoint extent_acc (fs : list QFrameItem.t) (s e : datetime) : datetime * datetime :=
  match fs with
  | [] => (s, e)
  | f :: rest =>
      extent_acc rest (Z.min (QFrameItem._start f) s)
                      (Z.max e (QFrameItem._start f + QFrameItem._duration f))
  end.

(** The extent of a non-empty list of frames: least start and greatest end. *)
Definition extent_of (f : QFrameItem.t) (fs : list QFrameItem.t) : datetime * datetime :=
  extent_acc fs (QFrameItem._start f) (QFrameItem._start f + QFrameItem._duration f).

Definition log_empty_extent : effect :=
  Log INFO "empty track cannot determine its horizontal extent".

Definition log_no_frames : effect :=
  Log DEBUG "no frames contained, cannot adjust size or location of QTrackItem".

Definition add_trace (w : world) (es : list effect) : world :=
  mkWorld (tracks w) (frame_items w) (trace w ++ es).

(** The frames that [update_frame_positions] works on. *)
Definition frames_to_place (tr : QTrackItem.t) (frames : list loc) : list loc :=
  match frames with
  | [] => QTrackItem.frames tr
  | _ :: _ => frames
  end.

Definition log_frame_width : effect :=
  Log DEBUG "width for {} is {} scene pixels".

Definition frame_end (f : QFrameItem.t) : datetime :=
  QFrameItem._start f + QFrameItem._duration f.

(** The end of every frame is a datetime. *)
Definition ends_fit (fs : list QFrameItem.t) : Prop :=
  Forall (fun f => is_datetime (frame_end f) = true) fs.

(** A frame that starts no earlier than the left pad after [datetime.min]
    and ends within the range of datetimes. *)
Definition frame_fits (f : QFrameItem.t) : Prop :=
  QTrackItem._left_pad <= QFrameItem._start f <= datetime_max /\
  0 <= frame_end f <= datetime_max.

(** A lane number that converts to a double. *)
Definition lane_fits (z : Z) : Prop := is_infinity (nearest_double z) = false.

(** Every location of a list holds some frame. *)
Definition populated (w : world) (ls : list loc) : Prop :=
  Forall (fun l => is_Some (frame_items w !! l)) ls.

Definition log_reorder_stub : effect :=
  Log WARNING "reorder tracks usingdragged track not yet implemented".

(** What [update_pos_bounds] computes from the extent [(t, d)] of a track. *)
Section LayoutVocabulary.

Variable DEFAULT_TRACK_HEIGHT : float.
Variable calc_pixel_x_pos :
  TimelineCoordTransform -> datetime -> option timedelta -> float * float.

Definition frames_span (tr : QTrackItem.t) (t : datetime) (d : timedelta)
    : float * float :=
  calc_pixel_x_pos (QTrackItem._scale tr) t (Some d).

Definition padded_span (tr : QTrackItem.t) (t : datetime) (d : timedelta)
    : float * float :=
  calc_pixel_x_pos (QTrackItem._scale tr) (t - QTrackItem._left_pad)
    (Some (d + QTrackItem._left_pad + QTrackItem._right_pad)).

Definition anchor_for (tr : QTrackItem.t) (t : datetime) (d : timedelta) : QPointF :=
  mkQPointF (fst (frames_span tr t d))
    (nearest_double (QTrackItem._z tr) * DEFAULT_TRACK_HEIGHT
     + DEFAULT_TRACK_HEIGHT / 2)%float.

Definition bounds_for (tr : QTrackItem.t) (t : datetime) (d : timedelta) : QRectF :=
  mkQRectF (fst (padded_span tr t d) - fst (frames_span tr t d))%float
           (- DEFAULT_TRACK_HEIGHT / 2)%float
           (snd (padded_span tr t d))
           DEFAULT_TRACK_HEIGHT.

Definition laid_out (tr : QTrackItem.t) (t : datetime) (d : timedelta) : QTrackItem.t :=
  QTrackItem.with_bounds (bounds_for tr t d)
    (QTrackItem.with_pos (anchor_for tr t d) tr).

(** Where [update_frame_positions] puts a frame of the track. *)
Definition placed (tr : QTrackItem.t) (f : QFrameItem.t) : QFrameItem.t :=
  QFrameItem.with_pos
    (mkQPointF
       (fst (calc_pixel_x_pos (QTrackItem._scale tr) (QFrameItem._start f) None)
        - px (QTrackItem.pos tr))%float
       0%float)
    f.

End LayoutVocabulary.

(** ** A small timeline, for concrete runs *)

(** A linear transform for concrete runs: a time lies at its distance from
    the origin in seconds times [pixels_per_second], and a duration is as
    wide as its seconds times [pixels_per_second]. *)
Definition demo_seconds (us : Z) : float :=
  (nearest_double us / 1000000)%float.

Definition demo_calc_pixel_duration (tf : TimelineCoordTransform) (d : timedelta)
    : float :=
  (demo_seconds d * pixels_per_second tf)%float.

Definition demo_calc_pixel_x_pos (tf : TimelineCoordTransform) (t : datetime)
    (d : option timedelta) : float * float :=
  ((demo_seconds (t - origin_time tf) * pixels_per_second tf)%float,
   match d with
   | Some d0 => demo_calc_pixel_duration tf d0
   | None => 0%float
   end).

Definition seconds (n : Z) : Z := n * 1000000.

(** 2017-01-01T00:00:00 *)
Definition demo_origin : datetime := 63618825600000000.

Definition demo_scale : TimelineCoordTransform := mkTransform demo_origin 2%float.

Definition demo_frame (owner : loc) (start duration : Z) (st : TimelineFrameState)
    : QFrameItem.t :=
  QFrameItem.mk st owner demo_scale (Z.to_N start) (demo_origin + seconds start)
    (seconds duration) "frame" None QRectF_null QPointF_origin.

Definition demo_track (z : Z) (frames : list loc) : QTrackItem.t :=
  QTrackItem.mk frames demo_scale (Z.to_N (100 + z)) z "track" None false None
    None false QRectF_null QPointF_origin.

(** Track 0 on lane 1 with the frames [10 s, 15 s] and [20 s, 30 s] after
    the origin; track 1 on lane 0 without frames. *)
Definition demo_world : world :=
  mkWorld
    (<[0%nat := demo_track 1 [0%nat; 1%nat]]> {[1%nat := demo_track 0 []]})
    (<[0%nat := demo_frame 0 10 5 READY]> {[1%nat := demo_frame 0 20 10 UNKNOWN]})
    [].

Definition demo_event (kind : string) : QGraphicsSceneDragDropEvent :=
  mkDragDropEvent (mkMimeData {[kind := []]}) false.

Definition kind_colormap : string := "application/x-timeline-colormap".
Definition kind_track : string := "application/x-timeline-track".

(** A [recv_mime] that accepts the event and hands over the raw data of the
    format, if present, and a [loads] that accepts everything. *)
Definition recv_raw (event : QGraphicsSceneDragDropEvent) (mimetype : string)
    : outcome (option (list Byte.byte)) * QGraphicsSceneDragDropEvent :=
  match mime_data (mimeData event) !! mimetype with
  | Some data => (Ret (Some data), setAccepted true event)
  | None => (Ret None, event)
  end.


Definition latest_world : world :=
  mkWorld {[0%nat := demo_track 1 [0%nat]]}
    {[0%nat := QFrameItem.mk READY 0%nat demo_scale 0%N
                 (datetime_max + 1 - seconds 2) (seconds 5) "frame"
                 None QRectF_null QPointF_origin]}
    [].

Definition loads_raw (data : list Byte.byte) : option (list Byte.byte) := Some data.

(** ** Further methods of the two classes *)


Definition QTrackItem_with_frames (frames : list loc) (tr : QTrackItem.t)
    : QTrackItem.t :=
  QTrackItem.mk frames (QTrackItem._scale tr)
    (QTrackItem._uuid tr) (QTrackItem._z tr) (QTrackItem._title tr)
    (QTrackItem._subtitle tr) (QTrackItem._selected tr) (QTrackItem._min tr)
    (QTrackItem._max tr) (QTrackItem._dragging tr) (QTrackItem._bounds tr)
    (QTrackItem.pos tr).




Definition QFrameItem_boundingRect (self : loc) : M QRectF :=
  emit (Log DEBUG "frame boundingRect");;
  let* f := get_frame self in ret (QFrameItem._bounds f).

(** A new frame object: it takes a location that no frame has. *)
Definition new_frame (f : QFrameItem.t) : M loc :=
  fun w =>
    let l := fresh (dom (frame_items w)) in
    (Ret l, mkWorld (tracks w) (<[l := f]> (frame_items w)) (trace w)).

Section Construction.

Variable DEFAULT_TRACK_HEIGHT : float.
Variable DEFAULT_FRAME_HEIGHT : float.
Variable calc_pixel_x_pos :
  TimelineCoordTransform -> datetime -> option timedelta -> float * float.
Variable calc_pixel_duration : TimelineCoordTransform -> timedelta -> float.
Variable QRectF_ne : QRectF -> QRectF -> bool.

(** [QFrameItem.__init__], which returns the new frame.  The thumbnail and
    the metadata have no attribute in the store.  [setParentItem(track)]
    makes the track the Qt parent of the frame; the store keeps that link as
    [_track], which the constructor sets to the same track. *)
Definition QFrameItem_init (track : loc) (scale : TimelineCoordTransform)
    (uuid : UUID) (start : datetime) (duration : timedelta)
    (state : TimelineFrameState) (title : string) (subtitle : option string)
    : M loc :=
  let* self :=
    new_frame (QFrameItem.mk state track scale uuid start duration title
                 subtitle QRectF_null QPointF_origin) in
  modify_track track
    (fun tr => QTrackItem_with_frames (QTrackItem.frames tr ++ [self]) tr);;
  update_bounds DEFAULT_FRAME_HEIGHT calc_pixel_duration QRectF_ne self;;
  update_pos_bounds DEFAULT_TRACK_HEIGHT calc_pixel_x_pos track;;
  update_frame_positions calc_pixel_x_pos track [];;
  ret self.

End Construction.

(** ** Vocabulary of the further statements *)

(** An exact comparison of rectangles, for concrete runs. *)
Definition QRectF_ne_exact (r1 r2 : QRectF) : bool :=
  negb (PrimFloat.eqb (rx r1) (rx r2) && PrimFloat.eqb (ry r1) (ry r2)
        && PrimFloat.eqb (rw r1) (rw r2) && PrimFloat.eqb (rh r1) (rh r2)).

(** The rectangle that [update_bounds] computes for a frame. *)
Definition frame_bounds_for (DEFAULT_FRAME_HEIGHT : float)
    (calc_pixel_duration : TimelineCoordTransform -> timedelta -> float)
    (f : QFrameItem.t) : QRectF :=
  mkQRectF 0%float (- DEFAULT_FRAME_HEIGHT / 2)%float
    (calc_pixel_duration (QFrameItem._scale f) (QFrameItem._duration f))
    DEFAULT_FRAME_HEIGHT.

Definition announcements (ls : list loc) : list effect :=
  map (fun l => PrepareGeometryChange (FrameItem l)) ls.

Definition log_colormap_stub : effect :=
  Log WARNING "set colormap from dragged colormap not yet implemented".

Definition log_frame_boundingRect : effect :=
  Log DEBUG "frame boundingRect".

(** ** Running methods: basic equations *)

Lemma bind_ret_step {A B} (m : M A) (k : A -> M B) w a w' :
  m w = (Ret a, w') -> bind m k w = k a w'.
Proof. intros E. unfold bind. now rewrite E. Qed.

Lemma bind_raise_step {A B} (m : M A) (k : A -> M B) w e w' :
  m w = (Raise e, w') -> bind m k w = (Raise e, w').
Proof. intros E. unfold bind. now rewrite E. Qed.

(** One step of a run whose first computation is known. *)
Tactic Notation "run_with" open_constr(E) :=
  rewrite (bind_ret_step _ _ _ _ _ E).

Lemma get_track_some w l tr :
  tracks w !! l = Some tr -> get_track l w = (Ret tr, w).
Proof. intros E. unfold get_track. now rewrite E. Qed.

Lemma get_frame_some w l f :
  frame_items w !! l = Some f -> get_frame l w = (Ret f, w).
Proof. intros E. unfold get_frame. now rewrite E. Qed.

(** ** The extent as the specification words it *)

Lemma datetime_add_fits t d w :
  is_datetime (t + d) = true -> datetime_add t d w = (Ret (t + d), w).
Proof. intros E. unfold datetime_add. now rewrite E. Qed.

Lemma datetime_add_overflow t d w :
  is_datetime (t + d) <> true -> datetime_add t d w = (Raise OverflowError, w).
Proof.
  intros E. unfold datetime_add. destruct (is_datetime (t + d)); [congruence|reflexivity].
Qed.

Lemma extent_loop_some w ls fs s e :
  resolves w ls fs ->
  ends_fit fs ->
  extent_loop ls (Some s) (Some e) w
  = (Ret (Some (fst (extent_acc fs s e)), Some (snd (extent_acc fs s e))), w).
Proof.
  intros R. revert s e. induction R as [|l f ls fs Hl _ IH]; intros s e Hfit.
  - reflexivity.
  - inversion Hfit as [|? ? Hf Hrest]; subst.
    cbn [extent_loop extent_acc].
    run_with (get_frame_some _ _ _ Hl).
    cbn [QFrameItem.td].
    run_with (bind_ret_step _ (fun td => ret (Z.max e td)) _ _ _
                (datetime_add_fits _ _ w Hf)).
    now apply IH.
Qed.

(** The loop raises as soon as the end of a frame is no datetime. *)
Lemma extent_loop_overflow w ls fs :
  resolves w ls fs ->
  ~ ends_fit fs ->
  forall s e, extent_loop ls s e w = (Raise OverflowError, w).
Proof.
  intros R. induction R as [|l f ls fs Hl _ IH]; intros Hno s e.
  - destruct Hno. constructor.
  - cbn [extent_loop].
    run_with (get_frame_some _ _ _ Hl).
    cbn [QFrameItem.td].
    destruct (is_datetime (frame_end f)) eqn:Hf.
    + assert (~ ends_fit fs) as Hrest
        by (intros Hrest; apply Hno; now constructor).
      destruct e as [e0|].
      * run_with (bind_ret_step _ (fun td => ret (Z.max e0 td)) _ _ _
                    (datetime_add_fits _ _ w Hf)).
        now apply IH.
      * run_with (datetime_add_fits _ _ w Hf). now apply IH.
    + assert (is_datetime (QFrameItem._start f + QFrameItem._duration f) <> true)
        as Hf' by (unfold frame_end in Hf; congruence).
      destruct e as [e0|].
      * erewrite bind_raise_step; [reflexivity|].
        erewrite bind_raise_step; [reflexivity|].
        now apply datetime_add_overflow.
      * erewrite bind_raise_step; [reflexivity|].
        now apply datetime_add_overflow.
Qed.

Lemma extent_acc_min_max fs s e l1 l2 :
  is_min_of s l1 -> is_max_of e l2 ->
  is_min_of (fst (extent_acc fs s e)) (l1 ++ starts fs)
  /\ is_max_of (snd (extent_acc fs s e)) (l2 ++ ends fs).
Proof.
  revert s e l1 l2. induction fs as [|f fs IH]; intros s e l1 l2 Hs He.
  - cbn. now rewrite !app_nil_r.
  - cbn [extent_acc starts ends map].
    change (map QFrameItem._start fs) with (starts fs).
    change (map (fun f0 => QFrameItem._start f0 + QFrameItem._duration f0) fs)
      with (ends fs).
    rewrite (cons_middle _ l1), (cons_middle _ l2), !app_assoc.
    apply IH.
    + destruct Hs as [Hin Hle]. split.
      * rewrite elem_of_app, list_elem_of_singleton.
        destruct (Z.min_spec (QFrameItem._start f) s) as [[_ ->]|[_ ->]]; auto.
      * intros x. rewrite elem_of_app, list_elem_of_singleton.
        intros [Hx| ->]; [specialize (Hle _ Hx)|]; lia.
    + destruct He as [Hin Hle]. split.
      * rewrite elem_of_app, list_elem_of_singleton.
        destruct (Z.max_spec e (QFrameItem._start f + QFrameItem._duration f))
          as [[_ ->]|[_ ->]]; auto.
      * intros x. rewrite elem_of_app, list_elem_of_singleton.
        intros [Hx| ->]; [specialize (Hle _ Hx)|]; lia.
Qed.

Lemma extent_of_min_max f fs :
  is_min_of (fst (extent_of f fs)) (starts (f :: fs))
  /\ is_max_of (snd (extent_of f fs)) (ends (f :: fs)).
Proof.
  unfold extent_of.
  apply (extent_acc_min_max fs _ _ [QFrameItem._start f]
           [QFrameItem._start f + QFrameItem._duration f]).
  - split; [apply list_elem_of_singleton; reflexivity|].
    intros x Hx. apply list_elem_of_singleton in Hx. lia.
  - split; [apply list_elem_of_singleton; reflexivity|].
    intros x Hx. apply list_elem_of_singleton in Hx. lia.
Qed.

Lemma time_extent_empty w self tr :
  tracks w !! self = Some tr -> QTrackItem.frames tr = [] ->
  time_extent_of_frames self w = (Ret (None, None), add_trace w [log_empty_extent]).
Proof.
  intros Ht Hf. unfold time_extent_of_frames, _iter_frame_children.
  run_with (bind_ret_step _ _ _ _ _ (get_track_some _ _ _ Ht)).
  rewrite Hf. reflexivity.
Qed.

Lemma time_extent_nonempty w self tr f fs :
  tracks w !! self = Some tr -> resolves w (QTrackItem.frames tr) (f :: fs) ->
  ends_fit (f :: fs) ->
  time_extent_of_frames self w
  = (Ret (Some (fst (extent_of f fs)),
          Some (snd (extent_of f fs) - fst (extent_of f fs))), w).
Proof.
  intros Ht R Hfit. unfold time_extent_of_frames, _iter_frame_children.
  run_with (bind_ret_step _ _ _ _ _ (get_track_some _ _ _ Ht)).
  unfold ret at 1.
  inversion R as [|l f' ls fs' Hl R' E1 E2]; subst.
  inversion Hfit as [|? ? Hf Hrest]; subst.
  cbn [extent_loop].
  erewrite bind_ret_step; cycle 1.
  { run_with (get_frame_some _ _ _ Hl). cbn [QFrameItem.td].
    run_with (datetime_add_fits _ _ w Hf).
    apply extent_loop_some; [exact R'|exact Hrest]. }
  reflexivity.
Qed.

Lemma time_extent_overflow w self tr fs :
  tracks w !! self = Some tr -> resolves w (QTrackItem.frames tr) fs ->
  ~ ends_fit fs ->
  time_extent_of_frames self w = (Raise OverflowError, w).
Proof.
  intros Ht R Hno. unfold time_extent_of_frames, _iter_frame_children.
  run_with (bind_ret_step _ _ _ _ _ (get_track_some _ _ _ Ht)).
  unfold ret at 1.
  erewrite bind_raise_step; [reflexivity|].
  now apply (extent_loop_overflow w _ fs).
Qed.

(** ** Extent of a track *)

(** C2, as the code has it.  [time_extent_of_frames] of a track without
    frames is [(None, None)]; of a track with frames, the end of each of
    which is a datetime, it is the least start [s] over the frames and the
    greatest end [e] over the frames less [s]. *)
Theorem time_extent_of_frames_min_max (w : world) (self : loc)
    (tr : QTrackItem.t) (fs : list QFrameItem.t) :
  tracks w !! self = Some tr ->
  resolves w (QTrackItem.frames tr) fs ->
  ends_fit fs ->
  match fs with
  | [] =>
      time_extent_of_frames self w
      = (Ret (None, None), add_trace w [log_empty_extent])
  | _ :: _ =>
      exists s e,
        is_min_of s (starts fs) /\ is_max_of e (ends fs) /\
        time_extent_of_frames self w = (Ret (Some s, Some (e - s)), w)
  end.
Proof.
  intros Ht R Hfit. destruct fs as [|f fs].
  - apply (time_extent_empty w self tr Ht). now inversion R.
  - exists (fst (extent_of f fs)), (snd (extent_of f fs)).
    destruct (extent_of_min_max f fs) as [Hmin Hmax].
    repeat split; try apply Hmin; try apply Hmax.
    now apply (time_extent_nonempty w self tr).
Qed.

Lemma demo_ends_fit :
  ends_fit [demo_frame 0 10 5 READY; demo_frame 0 20 10 UNKNOWN].
Proof. repeat constructor. Defined.

Lemma time_extent_of_frames_min_max_witness :
  exists s e,
    is_min_of s (starts [demo_frame 0 10 5 READY; demo_frame 0 20 10 UNKNOWN]) /\
    is_max_of e (ends [demo_frame 0 10 5 READY; demo_frame 0 20 10 UNKNOWN]) /\
    time_extent_of_frames 0%nat demo_world
    = (Ret (Some s, Some (e - s)), demo_world).
Proof.
  apply (time_extent_of_frames_min_max demo_world 0%nat (demo_track 1 [0%nat; 1%nat])
           [demo_frame 0 10 5 READY; demo_frame 0 20 10 UNKNOWN]).
  - reflexivity.
  - repeat constructor.
  - exact demo_ends_fit.
Defined.

(** C2, as stated, fails: on a track whose only frame starts two seconds
    before [datetime.max] and lasts five, [time_extent_of_frames] raises
    [OverflowError] where it adds the duration to the start. *)
Lemma time_extent_of_frames_raises_at_datetime_max :
  tracks latest_world !! 0%nat = Some (demo_track 1 [0%nat]) /\
  time_extent_of_frames 0%nat latest_world = (Raise OverflowError, latest_world).
Proof. split; reflexivity. Qed.

(** ** Position and bounds of a track *)

(** Frames that fit have ends that are datetimes, and an extent that the
    pads can be taken from and added to. *)
Lemma elem_of_map_inv {A B} (g : A -> B) (l : list A) (y : B) :
  y ∈ map g l -> exists x, x ∈ l /\ y = g x.
Proof.
  induction l as [|a l IH]; cbn; intros Hy.
  - now apply elem_of_nil in Hy.
  - apply elem_of_cons in Hy as [->|Hy].
    + exists a. split; [apply list_elem_of_here|reflexivity].
    + destruct (IH Hy) as (x & Hx & ->). exists x.
      split; [now apply list_elem_of_further|reflexivity].
Qed.

Lemma frames_fit_ends fs : Forall frame_fits fs -> ends_fit fs.
Proof.
  unfold ends_fit. intros H. eapply Forall_impl; [exact H|].
  intros f [_ He]. unfold is_datetime.
  apply andb_true_intro. split; apply Z.leb_le; lia.
Qed.

Lemma frames_fit_extent f fs :
  Forall frame_fits (f :: fs) ->
  QTrackItem._left_pad <= fst (extent_of f fs) <= datetime_max /\
  0 <= snd (extent_of f fs) <= datetime_max.
Proof.
  intros H. rewrite Forall_forall in H.
  destruct (extent_of_min_max f fs) as [[Hs _] [He _]].
  apply elem_of_map_inv in Hs as (g & Hg & ->).
  apply elem_of_map_inv in He as (h & Hh & ->).
  split; [apply (H g Hg)|apply (H h Hh)].
Qed.

Section LayoutFacts.

Variable DEFAULT_TRACK_HEIGHT : float.
Variable calc_pixel_x_pos :
  TimelineCoordTransform -> datetime -> option timedelta -> float * float.

Local Abbreviation update_pos_bounds' :=
  (update_pos_bounds DEFAULT_TRACK_HEIGHT calc_pixel_x_pos).
Local Abbreviation laid_out' := (laid_out DEFAULT_TRACK_HEIGHT calc_pixel_x_pos).
Local Abbreviation frames_span' := (frames_span calc_pixel_x_pos).
Local Abbreviation padded_span' := (padded_span calc_pixel_x_pos).

(** What the arithmetic of [update_pos_bounds] needs of the extent and of
    the lane. *)
Local Abbreviation layout_fits z t d :=
  (negb (is_infinity (nearest_double z))
   && is_datetime (t - QTrackItem._left_pad)
   && is_timedelta (d + QTrackItem._left_pad)
   && is_timedelta (d + QTrackItem._left_pad + QTrackItem._right_pad)).

Lemma update_pos_bounds_after_extent w self tr t d :
  tracks w !! self = Some tr ->
  time_extent_of_frames self w = (Ret (Some t, Some d), w) ->
  update_pos_bounds' self w
  = if layout_fits (QTrackItem._z tr) t d then
      (Ret tt,
       mkWorld (<[self := laid_out' tr t d]> (tracks w)) (frame_items w)
         (trace w ++ [PrepareGeometryChange (TrackItem self)]))
    else (Raise OverflowError, w).
Proof.
  intros Ht Hext. unfold update_pos_bounds.
  run_with Hext. run_with (get_track_some _ _ _ Ht).
  unfold bind at 1. unfold float_of_int.
  destruct (is_infinity (nearest_double (QTrackItem._z tr))); [reflexivity|].
  unfold ret at 1. cbn [negb andb].
  unfold laid_out, anchor_for, bounds_for, frames_span, padded_span.
  destruct (calc_pixel_x_pos _ t _) as [frames_left frames_width].
  unfold bind at 1. unfold datetime_sub.
  destruct (is_datetime (t - QTrackItem._left_pad)); [|reflexivity].
  unfold ret at 1. cbn [andb].
  unfold bind at 1. unfold timedelta_add at 1.
  destruct (is_timedelta (d + QTrackItem._left_pad)); [|reflexivity].
  unfold ret at 1. cbn [andb].
  unfold bind at 1. unfold timedelta_add at 1.
  destruct (is_timedelta (d + QTrackItem._left_pad + QTrackItem._right_pad));
    [|reflexivity].
  unfold ret at 1.
  destruct (calc_pixel_x_pos _ (t - _) _) as [track_left track_width].
  unfold bind, emit, setPos_track, modify_track, bind, get_track, put_track.
  cbn [tracks frame_items trace fst snd].
  rewrite Ht. cbn [tracks frame_items trace].
  rewrite lookup_insert_eq. cbn [tracks frame_items trace].
  now rewrite insert_insert_eq.
Qed.

Lemma update_pos_bounds_run w self tr f fs :
  tracks w !! self = Some tr ->
  resolves w (QTrackItem.frames tr) (f :: fs) ->
  Forall frame_fits (f :: fs) ->
  lane_fits (QTrackItem._z tr) ->
  update_pos_bounds' self w
  = (Ret tt,
     mkWorld
       (<[self := laid_out' tr (fst (extent_of f fs))
                    (snd (extent_of f fs) - fst (extent_of f fs))]> (tracks w))
       (frame_items w)
       (trace w ++ [PrepareGeometryChange (TrackItem self)])).
Proof.
  intros Ht R Hfit Hz.
  rewrite (update_pos_bounds_after_extent w self tr _ _ Ht
             (time_extent_nonempty w self tr f fs Ht R (frames_fit_ends _ Hfit))).
  destruct (frames_fit_extent f fs Hfit) as [Hs He].
  unfold lane_fits in Hz. rewrite Hz. cbn [negb andb].
  unfold QTrackItem._left_pad, QTrackItem._right_pad, timedelta_of,
    datetime_max in *.
  replace (is_datetime _) with true; cycle 1.
  { symmetry. unfold is_datetime, datetime_max.
    apply andb_true_intro. split; apply Z.leb_le; lia. }
  replace (is_timedelta (_ + _)) with true at 1; cycle 1.
  { symmetry. unfold is_timedelta, timedelta_min, timedelta_max.
    apply andb_true_intro. split; apply Z.leb_le; lia. }
  replace (is_timedelta _) with true; cycle 1.
  { symmetry. unfold is_timedelta, timedelta_min, timedelta_max.
    apply andb_true_intro. split; apply Z.leb_le; lia. }
  reflexivity.
Qed.

(** Whatever the times and the lane, [update_pos_bounds] on a track with
    frames either raises with the store as it was or lays the track out. *)
Lemma update_pos_bounds_outcome w self tr f fs :
  tracks w !! self = Some tr ->
  resolves w (QTrackItem.frames tr) (f :: fs) ->
  update_pos_bounds' self w = (Raise OverflowError, w) \/
  exists t d,
    update_pos_bounds' self w
    = (Ret tt,
       mkWorld (<[self := laid_out' tr t d]> (tracks w)) (frame_items w)
         (trace w ++ [PrepareGeometryChange (TrackItem self)])).
Proof.
  intros Ht R. destruct (decide (ends_fit (f :: fs))) as [Hfit|Hno].
  - rewrite (update_pos_bounds_after_extent w self tr _ _ Ht
               (time_extent_nonempty w self tr f fs Ht R Hfit)).
    destruct (layout_fits _ _ _); eauto.
  - left. unfold update_pos_bounds.
    erewrite bind_raise_step; [reflexivity|].
    now apply (time_extent_overflow w self tr (f :: fs)).
Qed.

(** C7. On a track without frames the extent is [(None, None)], and
    [update_pos_bounds] returns normally with the tracks and the frames of
    the store as they were, so that the track keeps its position and its
    bounds; only the two log lines are added. *)
Theorem update_pos_bounds_empty_track (w : world) (self : loc)
    (tr : QTrackItem.t) :
  tracks w !! self = Some tr ->
  QTrackItem.frames tr = [] ->
  fst (time_extent_of_frames self w) = Ret (None, None) /\
  exists w',
    update_pos_bounds' self w = (Ret tt, w') /\
    tracks w' = tracks w /\
    frame_items w' = frame_items w /\
    trace w' = trace w ++ [log_empty_extent; log_no_frames] /\
    (exists tr', tracks w' !! self = Some tr' /\
                 QTrackItem.pos tr' = QTrackItem.pos tr /\
                 QTrackItem._bounds tr' = QTrackItem._bounds tr).
Proof.
  intros Ht Hf. pose proof (time_extent_empty w self tr Ht Hf) as E.
  split; [now rewrite E|].
  exists (add_trace w [log_empty_extent; log_no_frames]).
  split.
  - unfold update_pos_bounds. run_with E.
    unfold bind, emit, ret, add_trace. cbn. now rewrite <- app_assoc.
  - cbn. repeat split. exists tr. auto.
Qed.


(** C3. On a track with frames, whenever [update_pos_bounds] returns, a
    second call right after it returns too and leaves every track of the
    store, and so the position and the bounds, exactly as the first left
    them; it nevertheless announces a geometry change again.  The first call
    returns when the frames fit and the lane converts to a double. *)
Theorem update_pos_bounds_twice (w : world) (self : loc)
    (tr : QTrackItem.t) (f : QFrameItem.t) (fs : list QFrameItem.t) :
  tracks w !! self = Some tr ->
  resolves w (QTrackItem.frames tr) (f :: fs) ->
  (Forall frame_fits (f :: fs) -> lane_fits (QTrackItem._z tr) ->
   exists w1, update_pos_bounds' self w = (Ret tt, w1)) /\
  forall w1,
    update_pos_bounds' self w = (Ret tt, w1) ->
    exists w2,
      update_pos_bounds' self w1 = (Ret tt, w2) /\
      tracks w2 = tracks w1 /\
      frame_items w2 = frame_items w1 /\
      trace w2 = trace w1 ++ [PrepareGeometryChange (TrackItem self)].
Proof.
  intros Ht R. split.
  - intros Hfit Hz. eexists.
    apply (update_pos_bounds_run w self tr f fs Ht R Hfit Hz).
  - intros w1 Hrun.
    destruct (decide (ends_fit (f :: fs))) as [Hfit|Hno]; cycle 1.
    { unfold update_pos_bounds in Hrun.
      erewrite bind_raise_step in Hrun;
        [discriminate Hrun|now apply (time_extent_overflow w self tr (f :: fs))]. }
    rewrite (update_pos_bounds_after_extent w self tr _ _ Ht
               (time_extent_nonempty w self tr f fs Ht R Hfit)) in Hrun.
    destruct (layout_fits _ _ _) eqn:Hlay; [|discriminate Hrun].
    injection Hrun as <-.
    set (tr1 := laid_out' tr (fst (extent_of f fs))
                  (snd (extent_of f fs) - fst (extent_of f fs))).
    set (w1 := mkWorld (<[self := tr1]> (tracks w)) (frame_items w)
                 (trace w ++ [PrepareGeometryChange (TrackItem self)])).
    assert (tracks w1 !! self = Some tr1) as Ht1 by apply lookup_insert_eq.
    assert (resolves w1 (QTrackItem.frames tr1) (f :: fs)) as R1 by exact R.
    eexists. split.
    + rewrite (update_pos_bounds_after_extent w1 self tr1 _ _ Ht1
                 (time_extent_nonempty w1 self tr1 f fs Ht1 R1 Hfit)).
      change (QTrackItem._z tr1) with (QTrackItem._z tr).
      rewrite Hlay. reflexivity.
    + cbn [w1 tr1 tracks frame_items trace]. split; [|split; reflexivity].
      now rewrite insert_insert_eq.
Qed.

End LayoutFacts.

(** ** Placement of frames in their track *)

Section PlacementFacts.

Variable calc_pixel_x_pos :
  TimelineCoordTransform -> datetime -> option timedelta -> float * float.

Local Abbreviation placed' := (placed calc_pixel_x_pos).

Lemma placed_twice tr f : placed' tr (placed' tr f) = placed' tr f.
Proof. reflexivity. Qed.

Lemma populated_insert w ls l f :
  populated w ls ->
  populated (mkWorld (tracks w) (<[l := f]> (frame_items w)) (trace w ++ [PrepareGeometryChange (FrameItem l)])) ls.
Proof.
  unfold populated. intros Hp. eapply Forall_impl; [exact Hp|]. intros k Hk. cbn.
  destruct (decide (l = k)) as [->|Hne].
  - rewrite lookup_insert_eq. eauto.
  - now rewrite lookup_insert_ne.
Qed.

Lemma position_loop_run self tr ls : forall w,
  tracks w !! self = Some tr ->
  populated w ls ->
  exists w',
    position_loop calc_pixel_x_pos self (px (QTrackItem.pos tr)) ls w = (Ret tt, w') /\
    tracks w' = tracks w /\
    trace w' = trace w ++ map (fun l => PrepareGeometryChange (FrameItem l)) ls /\
    (forall l f, l ∈ ls -> frame_items w !! l = Some f ->
                 frame_items w' !! l = Some (placed' tr f)) /\
    (forall l, l ∉ ls -> frame_items w' !! l = frame_items w !! l).
Proof.
  induction ls as [|l rest IH]; intros w Ht Hp.
  - exists w. cbn. rewrite app_nil_r. repeat split; auto.
    intros l f Hl. now apply elem_of_nil in Hl.
  - inversion Hp as [|? ? [f Hf] Hrest]; subst.
    destruct (IH _ (Ht : tracks (mkWorld (tracks w) (<[l := placed' tr f]> (frame_items w))
                                   (trace w ++ [PrepareGeometryChange (FrameItem l)]))
                          !! self = Some tr)
                   (populated_insert w rest l (placed' tr f) Hrest))
      as (w' & Hrun & Htr & Htrace & Hin & Hout).
    exists w'. split; [|split; [exact Htr|split]].
    + cbn [position_loop].
      run_with (get_track_some _ _ _ Ht).
      run_with (get_frame_some _ _ _ Hf).
      unfold placed in Hrun. unfold QFrameItem.t_.
      destruct (calc_pixel_x_pos _ (QFrameItem._start f) None) as [x w0].
      unfold bind at 1. unfold emit at 1.
      unfold setPos_frame, modify_frame.
      unfold bind at 1. unfold bind at 1. unfold get_frame at 1.
      cbn [frame_items]. rewrite Hf. unfold put_frame. cbn [tracks frame_items trace].
      exact Hrun.
    + rewrite Htrace. cbn [trace map]. now rewrite <- app_assoc.
    + split.
      * intros k fk Hk Hfk. destruct (decide (k ∈ rest)) as [Hkr|Hkr].
        -- destruct (decide (l = k)) as [->|Hne].
           ++ rewrite Hf in Hfk. injection Hfk as <-.
              rewrite <- (placed_twice tr f). apply Hin; [exact Hkr|].
              cbn. apply lookup_insert_eq.
           ++ apply Hin; [exact Hkr|]. cbn. now rewrite lookup_insert_ne.
        -- apply elem_of_cons in Hk as [->|Hk]; [|contradiction].
           rewrite (Hout _ Hkr). cbn. rewrite lookup_insert_eq.
           rewrite Hf in Hfk. now injection Hfk as <-.
      * intros k Hk. apply not_elem_of_cons in Hk as [Hne Hk].
        rewrite (Hout _ Hk). cbn. now rewrite lookup_insert_ne.
Qed.

(** C4. After [update_frame_positions], every frame the call works on, which
    is every frame owned by the track when the call names no frames, sits at
    [calc_pixel_x_pos(frame.t).x - anchor_x] horizontally and at [0]
    vertically, where [anchor_x] is the x position of the track, which the
    call does not move. *)
Theorem update_frame_positions_places_frames (w : world) (self : loc)
    (tr : QTrackItem.t) (frames : list loc) :
  tracks w !! self = Some tr ->
  populated w (frames_to_place tr frames) ->
  frames_to_place tr [] = QTrackItem.frames tr /\
  exists w',
    update_frame_positions calc_pixel_x_pos self frames w = (Ret tt, w') /\
    tracks w' = tracks w /\
    forall l f,
      l ∈ frames_to_place tr frames -> frame_items w !! l = Some f ->
      exists f',
        frame_items w' !! l = Some f' /\
        QFrameItem.pos f'
        = mkQPointF
            (fst (calc_pixel_x_pos (QTrackItem._scale tr) (QFrameItem.t_ f) None)
             - px (QTrackItem.pos tr))%float
            0%float /\
        py (QFrameItem.pos f') = 0%float /\
        QFrameItem.td f' = QFrameItem.td f /\
        QFrameItem._state f' = QFrameItem._state f.
Proof.
  intros Ht Hp. split; [reflexivity|].
  destruct (position_loop_run self tr (frames_to_place tr frames) w Ht Hp)
    as (w' & Hrun & Htr & _ & Hin & _).
  exists w'. split; [|split; [exact Htr|]].
  - unfold update_frame_positions, _iter_frame_children.
    run_with (get_track_some _ _ _ Ht).
    destruct frames as [|l0 frames].
    + run_with (bind_ret_step _ (fun tr0 => ret (QTrackItem.frames tr0)) _ _ _
              (get_track_some _ _ _ Ht)).
      exact Hrun.
    + exact Hrun.
  - intros l f Hl Hf. exists (placed' tr f).
    split; [now apply Hin|]. repeat split.
Qed.

End PlacementFacts.

(** ** Bounds of a frame *)

Section FrameBoundsFacts.

Variable DEFAULT_FRAME_HEIGHT : float.
Variable calc_pixel_duration : TimelineCoordTransform -> timedelta -> float.
Variable QRectF_ne : QRectF -> QRectF -> bool.

(** No rectangle differs from itself. *)
Hypothesis QRectF_ne_same : forall r, QRectF_ne r r = false.

Local Abbreviation update_bounds' :=
  (update_bounds DEFAULT_FRAME_HEIGHT calc_pixel_duration QRectF_ne).

Local Abbreviation fresh_bounds f :=
  (mkQRectF 0%float (- DEFAULT_FRAME_HEIGHT / 2)%float
     (calc_pixel_duration (QFrameItem._scale f) (QFrameItem._duration f))
     DEFAULT_FRAME_HEIGHT).

Lemma update_bounds_run w self f :
  frame_items w !! self = Some f ->
  update_bounds' self w
  = (Ret tt,
     if QRectF_ne (fresh_bounds f) (QFrameItem._bounds f) then
       mkWorld (tracks w)
         (<[self := QFrameItem.with_bounds (fresh_bounds f) f]> (frame_items w))
         (trace w ++ [log_frame_width; PrepareGeometryChange (FrameItem self)])
     else add_trace w [log_frame_width]).
Proof.
  intros Hf. unfold update_bounds. run_with (get_frame_some _ _ _ Hf).
  unfold bind at 1. unfold emit at 1.
  destruct (QRectF_ne _ _).
  - unfold bind, emit, modify_frame, bind, get_frame, put_frame.
    cbn [tracks frame_items trace]. rewrite Hf.
    cbn [tracks frame_items trace]. now rewrite <- app_assoc.
  - reflexivity.
Qed.

(** Unlike [update_pos_bounds] of a track, [update_bounds] of a frame
    compares before it announces: a second call in a row announces nothing
    and only logs. *)
Lemma update_bounds_twice w self f :
  frame_items w !! self = Some f ->
  exists w1,
    update_bounds' self w = (Ret tt, w1) /\
    update_bounds' self w1 = (Ret tt, add_trace w1 [log_frame_width]).
Proof.
  intros Hf. eexists. split; [apply (update_bounds_run w self f Hf)|].
  destruct (QRectF_ne (fresh_bounds f) (QFrameItem._bounds f)) eqn:Hne.
  - rewrite (update_bounds_run _ self (QFrameItem.with_bounds (fresh_bounds f) f))
      by (cbn; apply lookup_insert_eq).
    cbn [QFrameItem.with_bounds QFrameItem._scale QFrameItem._duration
         QFrameItem._bounds].
    now rewrite QRectF_ne_same.
  - rewrite (update_bounds_run _ self f) by exact Hf. now rewrite Hne.
Qed.

End FrameBoundsFacts.

(** ** Display state of a frame *)

Lemma state_setter_same w self f new_state :
  frame_items w !! self = Some f ->
  new_state = QFrameItem._state f ->
  state_setter self new_state w = (Ret tt, w).
Proof.
  intros Hf ->. unfold state_setter.
  run_with (get_frame_some _ _ _ Hf).
  rewrite bool_decide_eq_false_2 by (intros Hn; now apply Hn).
  reflexivity.
Qed.

Lemma state_setter_other w self f new_state :
  frame_items w !! self = Some f ->
  new_state <> QFrameItem._state f ->
  state_setter self new_state w
  = (Ret tt,
     mkWorld (tracks w)
       (<[self := QFrameItem.with_state new_state f]> (frame_items w))
       (trace w ++ [Update (FrameItem self)])).
Proof.
  intros Hf Hn. unfold state_setter.
  run_with (get_frame_some _ _ _ Hf).
  rewrite bool_decide_eq_true_2 by exact Hn.
  unfold modify_frame, bind, get_frame, put_frame, emit. now rewrite Hf.
Qed.

(** The extent loop reads nothing but [td] of the frames. *)
Lemma extent_loop_same_td ls w w' : forall s e,
  (forall l, QFrameItem.td <$> frame_items w !! l
             = QFrameItem.td <$> frame_items w' !! l) ->
  fst (extent_loop ls s e w) = fst (extent_loop ls s e w').
Proof.
  induction ls as [|l rest IH]; intros s e Htd; [reflexivity|].
  cbn [extent_loop]. unfold bind, get_frame.
  specialize (Htd l) as Hl.
  destruct (frame_items w !! l) as [f|], (frame_items w' !! l) as [f'|];
    cbn in Hl; try discriminate; [|reflexivity].
  injection Hl as Hs Hd. unfold QFrameItem.td. rewrite Hs, Hd.
  destruct e as [e0|]; unfold datetime_add, ret, raise;
    destruct (is_datetime _); cbn; try reflexivity; now apply IH.
Qed.

Lemma time_extent_same_td self w w' :
  tracks w' = tracks w ->
  (forall l, QFrameItem.td <$> frame_items w !! l
             = QFrameItem.td <$> frame_items w' !! l) ->
  fst (time_extent_of_frames self w') = fst (time_extent_of_frames self w).
Proof.
  intros Htr Htd. unfold time_extent_of_frames, _iter_frame_children.
  unfold bind, get_track, ret. rewrite Htr.
  destruct (tracks w !! self) as [tr|]; [|reflexivity].
  pose proof (extent_loop_same_td (QTrackItem.frames tr) w w' None None Htd) as E.
  destruct (extent_loop (QTrackItem.frames tr) None None w) as [o1 w1].
  destruct (extent_loop (QTrackItem.frames tr) None None w') as [o2 w2].
  cbn in E. subst o2.
  destruct o1 as [[[s|] [e|]]|]; reflexivity.
Qed.

(** C9. Assigning [frame.state] asks for nothing but a repaint of the frame:
    no geometry change is announced, the frame keeps its bounds, its position
    and its times, every other frame and every track of the store is as it
    was, and the extent of every track, the owner among them, is the same
    before and after. *)
Theorem state_setter_no_relayout (w : world) (self : loc) (f : QFrameItem.t)
    (new_state : TimelineFrameState) :
  frame_items w !! self = Some f ->
  exists w' f' es,
    state_setter self new_state w = (Ret tt, w') /\
    trace w' = trace w ++ es /\
    (forall e, e ∈ es -> e = Update (FrameItem self)) /\
    frame_items w' !! self = Some f' /\
    QFrameItem._bounds f' = QFrameItem._bounds f /\
    QFrameItem.pos f' = QFrameItem.pos f /\
    QFrameItem.td f' = QFrameItem.td f /\
    (forall l, l <> self -> frame_items w' !! l = frame_items w !! l) /\
    tracks w' = tracks w /\
    (forall owner,
       fst (time_extent_of_frames owner w') = fst (time_extent_of_frames owner w)).
Proof.
  intros Hf. destruct (decide (new_state = QFrameItem._state f)) as [Heq|Hne].
  - exists w, f, []. rewrite app_nil_r.
    split; [now apply (state_setter_same w self f)|].
    repeat split; auto. intros e He. now apply elem_of_nil in He.
  - eexists. exists (QFrameItem.with_state new_state f), [Update (FrameItem self)].
    split; [now apply (state_setter_other w self f)|].
    cbn [tracks frame_items trace]. split; [reflexivity|].
    split; [intros e He; now apply list_elem_of_singleton in He|].
    split; [apply lookup_insert_eq|].
    do 3 (split; [reflexivity|]).
    split; [intros l Hl; now rewrite lookup_insert_ne|].
    split; [reflexivity|].
    intros owner. apply time_extent_same_td; [reflexivity|].
    intros l. cbn [frame_items]. destruct (decide (self = l)) as [<-|Hl].
    + now rewrite lookup_insert_eq, Hf.
    + now rewrite lookup_insert_ne.
Qed.

(** C10. Assigning [frame.state] the value it already has changes nothing at
    all, trace included; assigning a different value stores it and asks for
    one repaint.  So a repaint is asked for exactly when the value differs. *)
Theorem state_setter_repaints_iff_changed (w : world) (self : loc)
    (f : QFrameItem.t) (new_state : TimelineFrameState) :
  frame_items w !! self = Some f ->
  exists w',
    state_setter self new_state w = (Ret tt, w') /\
    (new_state = QFrameItem._state f -> w' = w) /\
    (new_state <> QFrameItem._state f ->
     QFrameItem._state <$> frame_items w' !! self = Some new_state /\
     trace w' = trace w ++ [Update (FrameItem self)]) /\
    (Update (FrameItem self) ∈ drop (length (trace w)) (trace w')
     <-> new_state <> QFrameItem._state f).
Proof.
  intros Hf. destruct (decide (new_state = QFrameItem._state f)) as [Heq|Hne].
  - exists w. split; [now apply (state_setter_same w self f)|].
    split; [reflexivity|]. split; [contradiction|].
    rewrite drop_all. split; [intros He; now apply elem_of_nil in He|contradiction].
  - eexists. split; [now apply (state_setter_other w self f)|].
    cbn [tracks frame_items trace]. split; [contradiction|].
    split.
    + intros _. now rewrite lookup_insert_eq.
    + rewrite drop_app_length. split; [auto|]. intros _.
      now apply list_elem_of_singleton.
Qed.

(** ** Drag and drop on a track *)

Section DragDropFacts.

Variable MIMETYPE_TIMELINE_COLORMAP : string.
Variable MIMETYPE_TIMELINE_TRACK : string.
Variable PyObject : Type.
Variable recv_mime :
  QGraphicsSceneDragDropEvent -> string ->
  outcome (option PyObject) * QGraphicsSceneDragDropEvent.
Variable pkl_loads : list Byte.byte -> option PyObject.

Local Abbreviation dragEnterEvent' :=
  (dragEnterEvent MIMETYPE_TIMELINE_COLORMAP MIMETYPE_TIMELINE_TRACK).
Local Abbreviation dropEvent' :=
  (dropEvent MIMETYPE_TIMELINE_COLORMAP MIMETYPE_TIMELINE_TRACK PyObject
     recv_mime pkl_loads).

(** The decision of [dragEnterEvent], read off the formats of the payload. *)
Local Abbreviation accepts event :=
  (hasFormat (mimeData event) MIMETYPE_TIMELINE_COLORMAP
   || hasFormat (mimeData event) MIMETYPE_TIMELINE_TRACK).

Lemma dragEnterEvent_run w self tr event :
  tracks w !! self = Some tr ->
  dragEnterEvent' self event w
  = (Ret (setAccepted (accepts event) event),
     mkWorld (<[self := QTrackItem.with_dragging true tr]> (tracks w))
       (frame_items w) (trace w)).
Proof.
  intros Ht. unfold dragEnterEvent, modify_track, bind, get_track, put_track.
  rewrite Ht.
  destruct (hasFormat (mimeData event) MIMETYPE_TIMELINE_COLORMAP),
           (hasFormat (mimeData event) MIMETYPE_TIMELINE_TRACK); reflexivity.
Qed.

(** C5, as the code has it.  The decision of [dragEnterEvent] is the
    disjunction of the two format tests, so it is the same for any two
    payloads that carry the same kinds, on whatever track; the handler raises
    the track's [_dragging] flag and changes nothing else in the store, and
    asking again leaves the store as the first call left it. *)
Theorem dragEnterEvent_by_kind_sets_dragging (w : world) (self : loc)
    (tr : QTrackItem.t) (event : QGraphicsSceneDragDropEvent) :
  tracks w !! self = Some tr ->
  exists w',
    dragEnterEvent' self event w = (Ret (setAccepted (accepts event) event), w') /\
    w' = mkWorld (<[self := QTrackItem.with_dragging true tr]> (tracks w))
           (frame_items w) (trace w) /\
    (forall event2,
       dragEnterEvent' self event2 w'
       = (Ret (setAccepted (accepts event2) event2), w')) /\
    (forall w2 self2 tr2 event2,
       tracks w2 !! self2 = Some tr2 ->
       hasFormat (mimeData event2) MIMETYPE_TIMELINE_COLORMAP
       = hasFormat (mimeData event) MIMETYPE_TIMELINE_COLORMAP ->
       hasFormat (mimeData event2) MIMETYPE_TIMELINE_TRACK
       = hasFormat (mimeData event) MIMETYPE_TIMELINE_TRACK ->
       exists event2' w2',
         dragEnterEvent' self2 event2 w2 = (Ret event2', w2') /\
         isAccepted event2' = accepts event).
Proof.
  intros Ht. eexists. split; [apply (dragEnterEvent_run w self tr event Ht)|].
  split; [reflexivity|]. split.
  - intros event2.
    rewrite (dragEnterEvent_run _ self (QTrackItem.with_dragging true tr) event2)
      by (cbn; apply lookup_insert_eq).
    cbn [tracks frame_items trace]. now rewrite insert_insert_eq.
  - intros w2 self2 tr2 event2 Ht2 Hc Hk.
    eexists. eexists. split; [apply (dragEnterEvent_run w2 self2 tr2 event2 Ht2)|].
    cbn. now rewrite Hc, Hk.
Qed.

(** [dragLeaveEvent] lowers the flag that [dragEnterEvent] raises. *)
Lemma dragLeaveEvent_run w self tr event :
  tracks w !! self = Some tr ->
  dragLeaveEvent self event w
  = (Ret event,
     mkWorld (<[self := QTrackItem.with_dragging false tr]> (tracks w))
       (frame_items w) (trace w)).
Proof.
  intros Ht. unfold dragLeaveEvent, modify_track, bind, get_track, put_track.
  now rewrite Ht.
Qed.

Local Abbreviation scene_deliver_drop' :=
  (scene_deliver_drop MIMETYPE_TIMELINE_COLORMAP MIMETYPE_TIMELINE_TRACK PyObject
     recv_mime pkl_loads).

Lemma call_recv_mime_ret event mimetype r event' w :
  recv_mime event mimetype = (Ret r, event') ->
  call_recv_mime PyObject recv_mime event mimetype w = (Ret (r, event'), w).
Proof. intros E. unfold call_recv_mime. now rewrite E. Qed.

(** C6. A payload of neither kind is rejected by [dragEnterEvent], and the
    scene, which hands a drop only to an item that accepted the drag, then
    hands nothing to the track: the drop completes without an error and
    leaves the store as it was. *)
Theorem unrecognized_payload_rejected_and_ignored (w : world) (self : loc)
    (tr : QTrackItem.t) (event : QGraphicsSceneDragDropEvent) :
  tracks w !! self = Some tr ->
  hasFormat (mimeData event) MIMETYPE_TIMELINE_COLORMAP = false ->
  hasFormat (mimeData event) MIMETYPE_TIMELINE_TRACK = false ->
  exists entered w1,
    dragEnterEvent' self event w = (Ret entered, w1) /\
    isAccepted entered = false /\
    forall drop,
      scene_deliver_drop' self entered drop w1 = (Ret drop, w1).
Proof.
  intros Ht Hc Hk. eexists. eexists.
  split; [apply (dragEnterEvent_run w self tr event Ht)|].
  rewrite Hc, Hk. cbn [orb setAccepted isAccepted].
  split; [reflexivity|]. intros drop. reflexivity.
Qed.

(** C8, on the code.  On a drop that carries a track, [dropEvent] calls
    [insert_track_before], which logs a warning and does nothing else: every
    track of the store, its [_z] included, is as before.  The handler then
    raises [TypeError] as for any payload without a colormap. *)
Theorem dropEvent_track_payload_no_reorder (w : world) (self : loc)
    (event event1 event2 : QGraphicsSceneDragDropEvent) (source : PyObject) :
  recv_mime event MIMETYPE_TIMELINE_COLORMAP = (Ret None, event1) ->
  recv_mime event1 MIMETYPE_TIMELINE_TRACK = (Ret (Some source), event2) ->
  dropEvent' self event w = (Raise TypeError, add_trace w [log_reorder_stub]) /\
  tracks (snd (dropEvent' self event w)) = tracks w /\
  forall l, QTrackItem._z <$> tracks (snd (dropEvent' self event w)) !! l
            = QTrackItem._z <$> tracks w !! l.
Proof.
  intros Rc Rk.
  assert (dropEvent' self event w = (Raise TypeError, add_trace w [log_reorder_stub])) as E.
  { unfold dropEvent.
    run_with (call_recv_mime_ret _ _ _ _ w Rc).
    run_with (call_recv_mime_ret _ _ _ _ w Rk).
    reflexivity. }
  rewrite E. auto.
Qed.

End DragDropFacts.

(** ** The statements on the small timeline *)

Lemma demo_track0 :
  tracks demo_world !! 0%nat = Some (demo_track 1 [0%nat; 1%nat]).
Proof. reflexivity. Defined.

Lemma demo_frames_resolve :
  resolves demo_world [0%nat; 1%nat]
    [demo_frame 0 10 5 READY; demo_frame 0 20 10 UNKNOWN].
Proof. repeat constructor. Defined.

Lemma demo_frames_fit :
  Forall frame_fits [demo_frame 0 10 5 READY; demo_frame 0 20 10 UNKNOWN].
Proof.
  repeat (constructor; [unfold frame_fits; vm_compute; repeat split; discriminate|]).
  constructor.
Defined.

Lemma demo_lane_fits : lane_fits 1.
Proof. reflexivity. Defined.



Lemma update_pos_bounds_twice_witness :
  exists w1 w2,
    update_pos_bounds 48 demo_calc_pixel_x_pos 0%nat demo_world = (Ret tt, w1) /\
    update_pos_bounds 48 demo_calc_pixel_x_pos 0%nat w1 = (Ret tt, w2) /\
    tracks w2 = tracks w1 /\
    frame_items w2 = frame_items w1 /\
    trace w2 = trace w1 ++ [PrepareGeometryChange (TrackItem 0)].
Proof.
  destruct (update_pos_bounds_twice 48 demo_calc_pixel_x_pos demo_world 0%nat
              _ _ _ demo_track0 demo_frames_resolve) as [Hfirst Hsecond].
  destruct (Hfirst demo_frames_fit demo_lane_fits) as [w1 H1].
  destruct (Hsecond w1 H1) as (w2 & H2 & Htr & Hfr & Htrace).
  exists w1, w2. auto.
Defined.

Lemma update_pos_bounds_empty_track_witness :
  fst (time_extent_of_frames 1%nat demo_world) = Ret (None, None) /\
  exists w',
    update_pos_bounds 48 demo_calc_pixel_x_pos 1%nat demo_world = (Ret tt, w') /\
    tracks w' = tracks demo_world /\
    frame_items w' = frame_items demo_world /\
    trace w' = trace demo_world ++ [log_empty_extent; log_no_frames] /\
    (exists tr', tracks w' !! 1%nat = Some tr' /\
                 QTrackItem.pos tr' = QTrackItem.pos (demo_track 0 []) /\
                 QTrackItem._bounds tr' = QTrackItem._bounds (demo_track 0 [])).
Proof.
  apply (update_pos_bounds_empty_track 48 demo_calc_pixel_x_pos demo_world 1%nat
           (demo_track 0 [])); reflexivity.
Defined.

Lemma update_frame_positions_places_frames_witness :
  exists w' f',
    update_frame_positions demo_calc_pixel_x_pos 0%nat [] demo_world = (Ret tt, w') /\
    frame_items w' !! 1%nat = Some f' /\
    QFrameItem.pos f' = mkQPointF 40 0.
Proof.
  destruct (update_frame_positions_places_frames demo_calc_pixel_x_pos demo_world
              0%nat _ [] demo_track0) as (_ & w' & Hrun & _ & Hall).
  { repeat (constructor; [eexists; reflexivity|]). constructor. }
  destruct (Hall 1%nat (demo_frame 0 20 10 UNKNOWN)) as (f' & Hf' & Hpos & _).
  { cbn. repeat constructor. }
  { reflexivity. }
  exists w', f'. repeat split; assumption.
Defined.

Lemma state_setter_no_relayout_witness :
  exists w',
    state_setter 0%nat CURRENT demo_world = (Ret tt, w') /\
    tracks w' = tracks demo_world /\
    fst (time_extent_of_frames 0%nat w') = fst (time_extent_of_frames 0%nat demo_world).
Proof.
  destruct (state_setter_no_relayout demo_world 0%nat (demo_frame 0 10 5 READY) CURRENT)
    as (w' & f' & es & Hrun & _ & _ & _ & _ & _ & _ & _ & Htr & Hext);
    [reflexivity|].
  exists w'. repeat split; [exact Hrun|exact Htr|apply Hext].
Defined.

Lemma state_setter_repaints_iff_changed_witness :
  exists w',
    state_setter 0%nat READY demo_world = (Ret tt, w') /\ w' = demo_world.
Proof.
  destruct (state_setter_repaints_iff_changed demo_world 0%nat
              (demo_frame 0 10 5 READY) READY)
    as (w' & Hrun & Hsame & _); [reflexivity|].
  exists w'. split; [exact Hrun|]. now apply Hsame.
Defined.

Lemma dragEnterEvent_by_kind_sets_dragging_witness :
  exists w',
    dragEnterEvent kind_colormap kind_track 0%nat (demo_event kind_track) demo_world
    = (Ret (setAccepted true (demo_event kind_track)), w') /\
    forall event2,
      snd (dragEnterEvent kind_colormap kind_track 0%nat event2 w') = w'.
Proof.
  destruct (dragEnterEvent_by_kind_sets_dragging kind_colormap kind_track
              demo_world 0%nat _ (demo_event kind_track) demo_track0)
    as (w' & Hrun & _ & Hagain & _).
  exists w'. split; [exact Hrun|].
  intros event2. now rewrite Hagain.
Defined.

(** C5, as stated, fails: a first [dragEnterEvent] on a track that no drag
    has entered yet changes the track, whose [_dragging] flag goes from
    [False] to [True]. *)
Lemma dragEnterEvent_changes_the_track :
  QTrackItem._dragging <$> tracks demo_world !! 0%nat = Some false /\
  QTrackItem._dragging
    <$> tracks (snd (dragEnterEvent kind_colormap kind_track 0%nat
                       (demo_event kind_track) demo_world)) !! 0%nat
  = Some true /\
  snd (dragEnterEvent kind_colormap kind_track 0%nat
         (demo_event kind_track) demo_world)
  <> demo_world.
Proof.
  split; [reflexivity|]. split; [reflexivity|].
  intros E.
  apply (f_equal (fun w => QTrackItem._dragging <$> tracks w !! 0%nat)) in E.
  vm_compute in E. discriminate E.
Qed.

Lemma unrecognized_payload_rejected_and_ignored_witness :
  exists entered w1,
    dragEnterEvent kind_colormap kind_track 0%nat (demo_event "text/plain")
      demo_world = (Ret entered, w1) /\
    isAccepted entered = false /\
    scene_deliver_drop kind_colormap kind_track (list Byte.byte) recv_raw
      loads_raw 0%nat entered (demo_event "text/plain") w1
    = (Ret (demo_event "text/plain"), w1).
Proof.
  destruct (unrecognized_payload_rejected_and_ignored kind_colormap kind_track
              (list Byte.byte) recv_raw loads_raw demo_world 0%nat _
              (demo_event "text/plain") demo_track0 eq_refl eq_refl)
    as (entered & w1 & Hrun & Hacc & Hdrop).
  exists entered, w1. auto.
Defined.

Lemma dropEvent_track_payload_no_reorder_witness :
  dropEvent kind_colormap kind_track (list Byte.byte) recv_raw loads_raw 0%nat
    (demo_event kind_track) demo_world
  = (Raise TypeError, add_trace demo_world [log_reorder_stub]).
Proof.
  apply (dropEvent_track_payload_no_reorder kind_colormap kind_track
           (list Byte.byte) recv_raw loads_raw demo_world 0%nat
           (demo_event kind_track) (demo_event kind_track)
           (setAccepted true (demo_event kind_track)) []); reflexivity.
Defined.

(** ** More on the extent of a track *)

Lemma elem_of_map_1 {A B} (g : A -> B) (l : list A) (x : A) :
  x ∈ l -> g x ∈ map g l.
Proof.
  induction 1 as [|y z l _ IH]; cbn; [apply list_elem_of_here|].
  now apply list_elem_of_further.
Qed.

Lemma is_min_of_unique a b l l' :
  l ≡ₚ l' -> is_min_of a l -> is_min_of b l' -> a = b.
Proof.
  intros HP [Ha Hla] [Hb Hlb].
  assert (a <= b) by (apply Hla; now rewrite HP).
  assert (b <= a) by (apply Hlb; now rewrite <- HP).
  lia.
Qed.

Lemma is_max_of_unique a b l l' :
  l ≡ₚ l' -> is_max_of a l -> is_max_of b l' -> a = b.
Proof.
  intros HP [Ha Hla] [Hb Hlb].
  assert (b <= a) by (apply Hla; now rewrite HP).
  assert (a <= b) by (apply Hlb; now rewrite <- HP).
  lia.
Qed.

Lemma extent_acc_snoc fs g s e :
  extent_acc (fs ++ [g]) s e
  = (Z.min (QFrameItem._start g) (fst (extent_acc fs s e)),
     Z.max (snd (extent_acc fs s e)) (frame_end g)).
Proof.
  revert s e. induction fs as [|f fs IH]; intros s e; [reflexivity|].
  cbn [app extent_acc]. apply IH.
Qed.

Lemma ends_fit_ends fs :
  ends_fit fs <-> forall x, x ∈ ends fs -> is_datetime x = true.
Proof.
  unfold ends_fit. rewrite Forall_forall. split.
  - intros H x Hx. apply elem_of_map_inv in Hx as (f & Hf & ->). now apply H.
  - intros H f Hf.
    apply H, (elem_of_map_1
                (fun f => QFrameItem._start f + QFrameItem._duration f) _ _ Hf).
Qed.

(** X1. The extent of a track with frames, the end of each of which is a
    datetime, covers each of them: no frame starts before the extent does or
    ends after it, so that the extent lasts at least as long as any single
    frame. *)
Theorem time_extent_covers_frames (w : world) (self : loc)
    (tr : QTrackItem.t) (fs : list QFrameItem.t) :
  tracks w !! self = Some tr ->
  resolves w (QTrackItem.frames tr) fs ->
  ends_fit fs ->
  fs <> [] ->
  exists t d,
    time_extent_of_frames self w = (Ret (Some t, Some d), w) /\
    forall f, f ∈ fs ->
      t <= QFrameItem._start f /\ frame_end f <= t + d /\
      QFrameItem._duration f <= d.
Proof.
  intros Ht R Hfit Hne. destruct fs as [|f0 fs]; [contradiction|].
  destruct (extent_of_min_max f0 fs) as [[_ Hmin] [_ Hmax]].
  eexists. eexists.
  split; [apply (time_extent_nonempty w self tr f0 fs Ht R Hfit)|].
  intros f Hf.
  pose proof (Hmin _ (elem_of_map_1 QFrameItem._start _ _ Hf)) as H1.
  pose proof (Hmax _ (elem_of_map_1
                        (fun f => QFrameItem._start f + QFrameItem._duration f)
                        _ _ Hf)) as H2.
  unfold frame_end. lia.
Qed.

Lemma time_extent_covers_frames_witness :
  exists t d,
    time_extent_of_frames 0%nat demo_world = (Ret (Some t, Some d), demo_world) /\
    t <= demo_origin + seconds 20 /\ demo_origin + seconds 30 <= t + d.
Proof.
  destruct (time_extent_covers_frames demo_world 0%nat _ _ demo_track0
              demo_frames_resolve demo_ends_fit) as (t & d & Hrun & Hall);
    [discriminate|].
  exists t, d. split; [exact Hrun|].
  destruct (Hall (demo_frame 0 20 10 UNKNOWN)) as (H1 & H2 & _).
  { apply list_elem_of_further, list_elem_of_here. }
  split; [exact H1|exact H2].
Defined.

(** X2. The extent does not depend on the order of the frames in the track:
    two tracks whose frames carry the same starts and durations in any order
    have the same extent. *)
Theorem time_extent_order_independent (w1 w2 : world) (self1 self2 : loc)
    (tr1 tr2 : QTrackItem.t) (fs1 fs2 : list QFrameItem.t) :
  tracks w1 !! self1 = Some tr1 ->
  resolves w1 (QTrackItem.frames tr1) fs1 ->
  tracks w2 !! self2 = Some tr2 ->
  resolves w2 (QTrackItem.frames tr2) fs2 ->
  map QFrameItem.td fs1 ≡ₚ map QFrameItem.td fs2 ->
  fst (time_extent_of_frames self1 w1) = fst (time_extent_of_frames self2 w2).
Proof.
  intros Ht1 R1 Ht2 R2 HP.
  assert (starts fs1 ≡ₚ starts fs2) as HS.
  { unfold starts. change QFrameItem._start with (fun f => fst (QFrameItem.td f)).
    rewrite <- !(map_map QFrameItem.td fst). now apply Permutation_map. }
  assert (ends fs1 ≡ₚ ends fs2) as HE.
  { unfold ends.
    change (fun f => QFrameItem._start f + QFrameItem._duration f)
      with (fun f => (fun p : Z * Z => fst p + snd p) (QFrameItem.td f)).
    rewrite <- !(map_map QFrameItem.td (fun p : Z * Z => fst p + snd p)).
    now apply Permutation_map. }
  destruct (decide (ends_fit fs1)) as [F1|N1]; cycle 1.
  { assert (~ ends_fit fs2) as N2.
    { intros F2. apply N1. rewrite ends_fit_ends in F2 |- *.
      intros x Hx. apply F2. now rewrite <- HE. }
    rewrite (time_extent_overflow w1 self1 tr1 fs1 Ht1 R1 N1).
    now rewrite (time_extent_overflow w2 self2 tr2 fs2 Ht2 R2 N2). }
  assert (ends_fit fs2) as F2.
  { rewrite ends_fit_ends in F1 |- *. intros x Hx. apply F1. now rewrite HE. }
  destruct fs1 as [|f1 fs1], fs2 as [|f2 fs2].
  - inversion R1 as [E1|]; inversion R2 as [E2|]. symmetry in E1, E2.
    rewrite (time_extent_empty w1 self1 tr1 Ht1 E1).
    now rewrite (time_extent_empty w2 self2 tr2 Ht2 E2).
  - apply Permutation_nil_l in HP. discriminate HP.
  - symmetry in HP. apply Permutation_nil_l in HP. discriminate HP.
  - rewrite (time_extent_nonempty w1 self1 tr1 f1 fs1 Ht1 R1 F1).
    rewrite (time_extent_nonempty w2 self2 tr2 f2 fs2 Ht2 R2 F2).
    destruct (extent_of_min_max f1 fs1) as [Hmin1 Hmax1].
    destruct (extent_of_min_max f2 fs2) as [Hmin2 Hmax2].
    cbn [fst].
    rewrite (is_min_of_unique _ _ _ _ HS Hmin1 Hmin2).
    now rewrite (is_max_of_unique _ _ _ _ HE Hmax1 Hmax2).
Qed.

(** X3. A frame more at the end of the list, where every end is a datetime,
    takes the extent from [(t, d)] to the least of the two starts and the
    greatest of the two ends, so the extent never shrinks; on a track that
    had no frames the extent becomes the start and the duration of the
    frame. *)
Theorem time_extent_after_append (w w' : world) (self self' : loc)
    (tr tr' : QTrackItem.t) (fs : list QFrameItem.t) (g : QFrameItem.t) :
  tracks w !! self = Some tr ->
  resolves w (QTrackItem.frames tr) fs ->
  tracks w' !! self' = Some tr' ->
  resolves w' (QTrackItem.frames tr') (fs ++ [g]) ->
  ends_fit (fs ++ [g]) ->
  match fs with
  | [] =>
      time_extent_of_frames self' w'
      = (Ret (Some (QFrameItem._start g),
              Some (frame_end g - QFrameItem._start g)), w')
  | _ :: _ =>
      exists t d,
        time_extent_of_frames self w = (Ret (Some t, Some d), w) /\
        time_extent_of_frames self' w'
        = (Ret (Some (Z.min (QFrameItem._start g) t),
                Some (Z.max (t + d) (frame_end g)
                      - Z.min (QFrameItem._start g) t)), w') /\
        Z.min (QFrameItem._start g) t <= t /\
        t + d <= Z.max (t + d) (frame_end g)
  end.
Proof.
  intros Ht R Ht' R' Hfit.
  assert (ends_fit fs) as Hfs by (apply Forall_app in Hfit; apply Hfit).
  destruct fs as [|f fs].
  - apply (time_extent_nonempty w' self' tr' g [] Ht' R' Hfit).
  - eexists. eexists.
    split; [apply (time_extent_nonempty w self tr f fs Ht R Hfs)|].
    split; [|lia].
    rewrite (time_extent_nonempty w' self' tr' f (fs ++ [g]) Ht' R' Hfit).
    unfold extent_of. rewrite extent_acc_snoc. cbn [fst snd].
    repeat f_equal; lia.
Qed.

Lemma time_extent_order_independent_witness :
  fst (time_extent_of_frames 0%nat demo_world)
  = fst (time_extent_of_frames 0%nat
           (mkWorld {[0%nat := demo_track 3 [1%nat; 0%nat]]}
                    (frame_items demo_world) [])).
Proof.
  apply (time_extent_order_independent demo_world _ 0%nat 0%nat _
           (demo_track 3 [1%nat; 0%nat])
           [demo_frame 0 10 5 READY; demo_frame 0 20 10 UNKNOWN]
           [demo_frame 0 20 10 UNKNOWN; demo_frame 0 10 5 READY]
           demo_track0 demo_frames_resolve).
  - reflexivity.
  - repeat constructor.
  - apply perm_swap.
Defined.

Lemma time_extent_after_append_witness :
  exists t d,
    time_extent_of_frames 0%nat
      (mkWorld {[0%nat := demo_track 1 [0%nat]]} (frame_items demo_world) [])
    = (Ret (Some t, Some d),
       mkWorld {[0%nat := demo_track 1 [0%nat]]} (frame_items demo_world) []) /\
    time_extent_of_frames 0%nat demo_world
    = (Ret (Some (Z.min (demo_origin + seconds 20) t),
            Some (Z.max (t + d) (demo_origin + seconds 30)
                  - Z.min (demo_origin + seconds 20) t)),
       demo_world).
Proof.
  destruct (time_extent_after_append
              (mkWorld {[0%nat := demo_track 1 [0%nat]]} (frame_items demo_world) [])
              demo_world 0%nat 0%nat (demo_track 1 [0%nat])
              (demo_track 1 [0%nat; 1%nat])
              [demo_frame 0 10 5 READY] (demo_frame 0 20 10 UNKNOWN))
    as (t & d & H1 & H2 & _).
  - reflexivity.
  - repeat constructor.
  - exact demo_track0.
  - exact demo_frames_resolve.
  - exact demo_ends_fit.
  - exists t, d. split; [exact H1|exact H2].
Defined.

(** ** More on position and bounds of a track *)

Lemma QTrackItem_geometry_eta tr :
  tr = QTrackItem.with_bounds (QTrackItem._bounds tr)
         (QTrackItem.with_pos (QTrackItem.pos tr) tr).
Proof. now destruct tr. Qed.

Lemma world_eta w : mkWorld (tracks w) (frame_items w) (trace w) = w.
Proof. now destruct w. Qed.

Lemma resolves_nil_or_cons w ls fs :
  resolves w ls fs -> (ls = [] /\ fs = []) \/ exists f fs', fs = f :: fs'.
Proof. intros R. destruct R; eauto. Qed.

Lemma update_pos_bounds_empty_run
    (DEFAULT_TRACK_HEIGHT : float)
    (calc_pixel_x_pos :
       TimelineCoordTransform -> datetime -> option timedelta -> float * float)
    w self tr :
  tracks w !! self = Some tr ->
  QTrackItem.frames tr = [] ->
  update_pos_bounds DEFAULT_TRACK_HEIGHT calc_pixel_x_pos self w
  = (Ret tt, add_trace w [log_empty_extent; log_no_frames]).
Proof.
  intros Ht Hf. unfold update_pos_bounds.
  run_with (time_extent_empty w self tr Ht Hf).
  unfold bind, emit, ret, add_trace. cbn. now rewrite <- app_assoc.
Qed.

(** X4. Whether it returns or raises [OverflowError], [update_pos_bounds]
    writes nothing but the position and the bounds of its own track: the
    frames of the store, every other track and the remaining attributes of
    the track, its frames, lane and drag flag among them, are as before, and
    no repaint is asked for.  When it raises, it has written nothing at
    all. *)
Theorem update_pos_bounds_changes_only_geometry
    (DEFAULT_TRACK_HEIGHT : float)
    (calc_pixel_x_pos :
       TimelineCoordTransform -> datetime -> option timedelta -> float * float)
    (w : world) (self : loc) (tr : QTrackItem.t) (fs : list QFrameItem.t) :
  tracks w !! self = Some tr ->
  resolves w (QTrackItem.frames tr) fs ->
  exists o w' tr',
    update_pos_bounds DEFAULT_TRACK_HEIGHT calc_pixel_x_pos self w = (o, w') /\
    (o = Ret tt \/ (o = Raise OverflowError /\ w' = w)) /\
    frame_items w' = frame_items w /\
    (forall l, l <> self -> tracks w' !! l = tracks w !! l) /\
    tracks w' !! self = Some tr' /\
    tr' = QTrackItem.with_bounds (QTrackItem._bounds tr')
            (QTrackItem.with_pos (QTrackItem.pos tr') tr) /\
    (forall it, Update it ∉ drop (length (trace w)) (trace w')).
Proof.
  intros Ht R. destruct (resolves_nil_or_cons _ _ _ R) as [[Hnil ->]|(f & fs' & ->)].
  - eexists. eexists. exists tr.
    split; [apply (update_pos_bounds_empty_run _ _ w self tr Ht Hnil)|].
    cbn [add_trace tracks frame_items trace]. split; [now left|].
    split; [reflexivity|].
    split; [reflexivity|]. split; [exact Ht|].
    split; [apply QTrackItem_geometry_eta|].
    intros it. rewrite drop_app_length.
    intros Hin. apply elem_of_cons in Hin as [Hin|Hin]; [discriminate|].
    apply list_elem_of_singleton in Hin. discriminate.
  - destruct (update_pos_bounds_outcome DEFAULT_TRACK_HEIGHT calc_pixel_x_pos
                w self tr f fs' Ht R) as [Hraise|(t & d & Hrun)].
    + exists (Raise OverflowError), w, tr.
      split; [exact Hraise|]. split; [now right|].
      split; [reflexivity|]. split; [reflexivity|]. split; [exact Ht|].
      split; [apply QTrackItem_geometry_eta|].
      intros it. rewrite drop_all. apply not_elem_of_nil.
    + eexists. eexists. eexists. split; [exact Hrun|].
      cbn [tracks frame_items trace]. split; [now left|].
      split; [reflexivity|].
      split; [intros l Hl; now rewrite lookup_insert_ne|].
      split; [apply lookup_insert_eq|]. split; [reflexivity|].
      intros it. rewrite drop_app_length. intros Hin.
      apply list_elem_of_singleton in Hin. discriminate.
Qed.

Lemma update_pos_bounds_changes_only_geometry_witness :
  exists o w' tr',
    update_pos_bounds 48 demo_calc_pixel_x_pos 0%nat demo_world = (o, w') /\
    frame_items w' = frame_items demo_world /\
    tracks w' !! 1%nat = tracks demo_world !! 1%nat /\
    tracks w' !! 0%nat = Some tr' /\
    QTrackItem._z tr' = 1 /\ QTrackItem.frames tr' = [0%nat; 1%nat].
Proof.
  destruct (update_pos_bounds_changes_only_geometry 48 demo_calc_pixel_x_pos
              demo_world 0%nat _ _ demo_track0 demo_frames_resolve)
    as (o & w' & tr' & Hrun & _ & Hfr & Hother & Htr & Heta & _).
  exists o, w', tr'. split; [exact Hrun|]. split; [exact Hfr|].
  split; [apply Hother; discriminate|]. split; [exact Htr|].
  rewrite Heta. split; reflexivity.
Defined.

(** ** More on the placement of frames *)

Section MorePlacementFacts.

Variable calc_pixel_x_pos :
  TimelineCoordTransform -> datetime -> option timedelta -> float * float.

Local Abbreviation placed' := (placed calc_pixel_x_pos).
Local Abbreviation update_frame_positions' :=
  (update_frame_positions calc_pixel_x_pos).

Lemma update_frame_positions_run w self tr frames :
  tracks w !! self = Some tr ->
  populated w (frames_to_place tr frames) ->
  exists w',
    update_frame_positions' self frames w = (Ret tt, w') /\
    tracks w' = tracks w /\
    trace w' = trace w ++ announcements (frames_to_place tr frames) /\
    (forall l f, l ∈ frames_to_place tr frames -> frame_items w !! l = Some f ->
                 frame_items w' !! l = Some (placed' tr f)) /\
    (forall l, l ∉ frames_to_place tr frames ->
               frame_items w' !! l = frame_items w !! l).
Proof.
  intros Ht Hp.
  destruct (position_loop_run calc_pixel_x_pos self tr
              (frames_to_place tr frames) w Ht Hp)
    as (w' & Hrun & Htr & Htrace & Hin & Hout).
  exists w'. split; [|auto].
  unfold update_frame_positions, _iter_frame_children.
  run_with (get_track_some _ _ _ Ht).
  destruct frames as [|l0 frames].
  - run_with (bind_ret_step _ (fun tr0 => ret (QTrackItem.frames tr0)) _ _ _
                (get_track_some _ _ _ Ht)).
    exact Hrun.
  - exact Hrun.
Qed.

(** X5. [update_frame_positions] moves only the frames it works on: every
    other frame of the store and every track is as before, and exactly one
    geometry change is announced per frame worked on, in the order of the
    list. *)
Theorem update_frame_positions_touches_only_named (w : world) (self : loc)
    (tr : QTrackItem.t) (frames : list loc) :
  tracks w !! self = Some tr ->
  populated w (frames_to_place tr frames) ->
  exists w',
    update_frame_positions' self frames w = (Ret tt, w') /\
    tracks w' = tracks w /\
    trace w' = trace w ++ announcements (frames_to_place tr frames) /\
    forall l, l ∉ frames_to_place tr frames ->
              frame_items w' !! l = frame_items w !! l.
Proof.
  intros Ht Hp.
  destruct (update_frame_positions_run w self tr frames Ht Hp)
    as (w' & Hrun & Htr & Htrace & _ & Hout).
  exists w'. auto.
Qed.

(** X6. A second [update_frame_positions] right after a first, for the same
    frames, leaves every frame and every track of the store exactly as the
    first left them; it announces the same geometry changes once more. *)
Theorem update_frame_positions_twice (w : world) (self : loc)
    (tr : QTrackItem.t) (frames : list loc) :
  tracks w !! self = Some tr ->
  populated w (frames_to_place tr frames) ->
  exists w1 w2,
    update_frame_positions' self frames w = (Ret tt, w1) /\
    update_frame_positions' self frames w1 = (Ret tt, w2) /\
    tracks w2 = tracks w1 /\
    frame_items w2 = frame_items w1 /\
    trace w2 = trace w1 ++ announcements (frames_to_place tr frames).
Proof.
  intros Ht Hp.
  destruct (update_frame_positions_run w self tr frames Ht Hp)
    as (w1 & Hrun1 & Htr1 & _ & Hin1 & Hout1).
  assert (tracks w1 !! self = Some tr) as Ht1 by now rewrite Htr1.
  assert (populated w1 (frames_to_place tr frames)) as Hp1.
  { unfold populated in *. rewrite Forall_forall in Hp |- *.
    intros l Hl. destruct (Hp l Hl) as [f Hf].
    rewrite (Hin1 l f Hl Hf). eauto. }
  destruct (update_frame_positions_run w1 self tr frames Ht1 Hp1)
    as (w2 & Hrun2 & Htr2 & Htrace2 & Hin2 & Hout2).
  exists w1, w2. repeat split; try assumption.
  apply map_eq. intros l.
  destruct (decide (l ∈ frames_to_place tr frames)) as [Hl|Hl].
  - unfold populated in Hp. rewrite Forall_forall in Hp.
    destruct (Hp l Hl) as [f Hf].
    rewrite (Hin2 l _ Hl (Hin1 l f Hl Hf)). now rewrite (Hin1 l f Hl Hf).
  - now apply Hout2.
Qed.

End MorePlacementFacts.

Lemma demo_frames_populated : populated demo_world [1%nat].
Proof. repeat (constructor; [eexists; reflexivity|]). constructor. Defined.

Lemma update_frame_positions_touches_only_named_witness :
  exists w',
    update_frame_positions demo_calc_pixel_x_pos 0%nat [1%nat] demo_world = (Ret tt, w') /\
    trace w' = [PrepareGeometryChange (FrameItem 1)] /\
    frame_items w' !! 0%nat = Some (demo_frame 0 10 5 READY).
Proof.
  destruct (update_frame_positions_touches_only_named demo_calc_pixel_x_pos
              demo_world 0%nat _ [1%nat] demo_track0 demo_frames_populated)
    as (w' & Hrun & _ & Htrace & Hout).
  exists w'. split; [exact Hrun|]. split; [exact Htrace|].
  rewrite Hout; [reflexivity|].
  intros Hin. apply list_elem_of_singleton in Hin. discriminate.
Defined.

Lemma update_frame_positions_twice_witness :
  exists w1 w2,
    update_frame_positions demo_calc_pixel_x_pos 0%nat [1%nat] demo_world = (Ret tt, w1) /\
    update_frame_positions demo_calc_pixel_x_pos 0%nat [1%nat] w1 = (Ret tt, w2) /\
    frame_items w2 = frame_items w1.
Proof.
  destruct (update_frame_positions_twice demo_calc_pixel_x_pos
              demo_world 0%nat _ [1%nat] demo_track0 demo_frames_populated)
    as (w1 & w2 & H1 & H2 & _ & Hfr & _).
  exists w1, w2. auto.
Defined.

(** ** More on the bounds of a frame *)

Section MoreFrameBoundsFacts.

Variable DEFAULT_FRAME_HEIGHT : float.
Variable calc_pixel_duration : TimelineCoordTransform -> timedelta -> float.
Variable QRectF_ne : QRectF -> QRectF -> bool.

Local Abbreviation update_bounds' :=
  (update_bounds DEFAULT_FRAME_HEIGHT calc_pixel_duration QRectF_ne).
Local Abbreviation fresh_bounds :=
  (frame_bounds_for DEFAULT_FRAME_HEIGHT calc_pixel_duration).

(** X7. [update_bounds] of a frame announces a geometry change exactly when
    it replaces the bounds, which is when [!=] tells the computed rectangle
    from the stored one; then [boundingRect] gives the computed rectangle,
    otherwise the stored one.  Position, times and state of the frame, the
    other frames and the tracks are never touched. *)
Theorem update_bounds_announces_iff_replaced (w : world) (self : loc)
    (f : QFrameItem.t) :
  frame_items w !! self = Some f ->
  exists w' r,
    update_bounds' self w = (Ret tt, w') /\
    tracks w' = tracks w /\
    (forall l, l <> self -> frame_items w' !! l = frame_items w !! l) /\
    frame_items w' !! self = Some (QFrameItem.with_bounds r f) /\
    fst (QFrameItem_boundingRect self w') = Ret r /\
    (QRectF_ne (fresh_bounds f) (QFrameItem._bounds f) = true ->
     r = fresh_bounds f /\
     trace w' = trace w ++ [log_frame_width; PrepareGeometryChange (FrameItem self)]) /\
    (QRectF_ne (fresh_bounds f) (QFrameItem._bounds f) = false ->
     r = QFrameItem._bounds f /\ trace w' = trace w ++ [log_frame_width]).
Proof.
  intros Hf.
  pose proof (update_bounds_run DEFAULT_FRAME_HEIGHT calc_pixel_duration
                QRectF_ne w self f Hf) as Hrun.
  unfold frame_bounds_for.
  destruct (QRectF_ne _ (QFrameItem._bounds f)) eqn:Hne.
  - eexists. eexists. split; [exact Hrun|].
    cbn [tracks frame_items trace]. split; [reflexivity|].
    split; [intros l Hl; now rewrite lookup_insert_ne|].
    split; [apply lookup_insert_eq|].
    split.
    { unfold QFrameItem_boundingRect, bind, emit, get_frame. cbn.
      now rewrite lookup_insert_eq. }
    split; [auto|discriminate].
  - eexists. exists (QFrameItem._bounds f). split; [exact Hrun|].
    cbn [add_trace tracks frame_items trace]. split; [reflexivity|].
    split; [reflexivity|].
    split; [rewrite Hf; now destruct f|].
    split.
    { unfold QFrameItem_boundingRect, bind, emit, get_frame. cbn.
      now rewrite Hf. }
    split; [discriminate|auto].
Qed.

(** X8. When [!=] does not tell the computed rectangle from itself, a second
    [update_bounds] right after a first announces nothing and changes
    nothing: it only logs. *)
Theorem update_bounds_second_call_silent (w : world) (self : loc)
    (f : QFrameItem.t) :
  frame_items w !! self = Some f ->
  QRectF_ne (fresh_bounds f) (fresh_bounds f) = false ->
  exists w1,
    update_bounds' self w = (Ret tt, w1) /\
    update_bounds' self w1 = (Ret tt, add_trace w1 [log_frame_width]).
Proof.
  intros Hf Hsame. eexists.
  split; [apply (update_bounds_run _ _ _ w self f Hf)|].
  unfold frame_bounds_for in Hsame.
  destruct (QRectF_ne _ (QFrameItem._bounds f)) eqn:Hne.
  - rewrite (update_bounds_run _ _ _ _ self
               (QFrameItem.with_bounds (fresh_bounds f) f))
      by (cbn; apply lookup_insert_eq).
    cbn [QFrameItem.with_bounds QFrameItem._scale QFrameItem._duration
         QFrameItem._bounds].
    unfold frame_bounds_for. cbn [QFrameItem.with_bounds QFrameItem._scale
      QFrameItem._duration QFrameItem._bounds].
    now rewrite Hsame.
  - rewrite (update_bounds_run _ _ _ _ self f) by exact Hf. now rewrite Hne.
Qed.

End MoreFrameBoundsFacts.

Lemma demo_frame0 :
  frame_items demo_world !! 0%nat = Some (demo_frame 0 10 5 READY).
Proof. reflexivity. Defined.

Lemma update_bounds_announces_iff_replaced_witness :
  exists w',
    update_bounds 40 demo_calc_pixel_duration QRectF_ne_exact 0%nat demo_world
    = (Ret tt, w') /\
    fst (QFrameItem_boundingRect 0%nat w') = Ret (mkQRectF 0 (-20) 10 40) /\
    trace w' = [log_frame_width; PrepareGeometryChange (FrameItem 0)].
Proof.
  destruct (update_bounds_announces_iff_replaced 40 demo_calc_pixel_duration
              QRectF_ne_exact demo_world 0%nat _ demo_frame0)
    as (w' & r & Hrun & _ & _ & _ & Hrect & Hyes & _).
  destruct (Hyes eq_refl) as [-> Htrace].
  exists w'. split; [exact Hrun|]. split; [exact Hrect|exact Htrace].
Defined.

Lemma update_bounds_second_call_silent_witness :
  exists w1,
    update_bounds 40 demo_calc_pixel_duration QRectF_ne_exact 0%nat demo_world
    = (Ret tt, w1) /\
    update_bounds 40 demo_calc_pixel_duration QRectF_ne_exact 0%nat w1
    = (Ret tt, add_trace w1 [log_frame_width]).
Proof.
  apply (update_bounds_second_call_silent 40 demo_calc_pixel_duration QRectF_ne_exact
           demo_world 0%nat _ demo_frame0).
  reflexivity.
Defined.

(** ** The lane of a track *)



(** ** More on the display state of a frame *)

(** X10. After an assignment to [frame.state], reading [state] gives the
    value assigned, whatever the state was before, and assigning the same
    value once more changes nothing and asks for no repaint. *)
Theorem state_reads_back_what_was_assigned (w : world) (self : loc)
    (f : QFrameItem.t) (new_state : TimelineFrameState) :
  frame_items w !! self = Some f ->
  exists w1,
    state_setter self new_state w = (Ret tt, w1) /\
    state self w1 = (Ret new_state, w1) /\
    state_setter self new_state w1 = (Ret tt, w1).
Proof.
  intros Hf. destruct (decide (new_state = QFrameItem._state f)) as [Heq|Hne].
  - exists w. split; [now apply (state_setter_same w self f)|].
    split; [|now apply (state_setter_same w self f)].
    unfold state. run_with (get_frame_some _ _ _ Hf). now rewrite Heq.
  - eexists. split; [now apply (state_setter_other w self f)|].
    split.
    + unfold state, bind, get_frame. cbn [frame_items].
      now rewrite lookup_insert_eq.
    + apply (state_setter_same _ self (QFrameItem.with_state new_state f));
        [apply lookup_insert_eq|reflexivity].
Qed.

Lemma state_reads_back_what_was_assigned_witness :
  exists w1,
    state_setter 0%nat ERROR demo_world = (Ret tt, w1) /\
    state 0%nat w1 = (Ret ERROR, w1) /\
    state_setter 0%nat ERROR w1 = (Ret tt, w1).
Proof.
  exact (state_reads_back_what_was_assigned demo_world 0%nat _ ERROR demo_frame0).
Defined.

(** ** More on drag and drop *)

Section MoreDragDropFacts.

Variable MIMETYPE_TIMELINE_COLORMAP : string.
Variable MIMETYPE_TIMELINE_TRACK : string.
Variable PyObject : Type.
Variable recv_mime :
  QGraphicsSceneDragDropEvent -> string ->
  outcome (option PyObject) * QGraphicsSceneDragDropEvent.
Variable pkl_loads : list Byte.byte -> option PyObject.

Local Abbreviation dragEnterEvent' :=
  (dragEnterEvent MIMETYPE_TIMELINE_COLORMAP MIMETYPE_TIMELINE_TRACK).
Local Abbreviation dropEvent' :=
  (dropEvent MIMETYPE_TIMELINE_COLORMAP MIMETYPE_TIMELINE_TRACK PyObject
     recv_mime pkl_loads).

Lemma with_dragging_restores tr :
  QTrackItem._dragging tr = false ->
  QTrackItem.with_dragging false (QTrackItem.with_dragging true tr) = tr.
Proof. destruct tr. cbn. now intros ->. Qed.

(** X11. A drag that enters a track and leaves it again changes nothing: on
    a track that no drag is over, [dragEnterEvent] followed by
    [dragLeaveEvent] gives back the store as it was, and [dragLeaveEvent]
    leaves the decision that [dragEnterEvent] put in the event. *)
Theorem dragEnter_then_dragLeave_restores (w : world) (self : loc)
    (tr : QTrackItem.t) (event : QGraphicsSceneDragDropEvent) :
  tracks w !! self = Some tr ->
  QTrackItem._dragging tr = false ->
  exists event1 w1,
    dragEnterEvent' self event w = (Ret event1, w1) /\
    QTrackItem._dragging <$> tracks w1 !! self = Some true /\
    dragLeaveEvent self event1 w1 = (Ret event1, w).
Proof.
  intros Ht Hd. eexists. eexists.
  split; [apply (dragEnterEvent_run _ _ w self tr event Ht)|].
  cbn [tracks]. split; [now rewrite lookup_insert_eq|].
  rewrite (dragLeaveEvent_run _ self (QTrackItem.with_dragging true tr))
    by (cbn; apply lookup_insert_eq).
  cbn [tracks frame_items trace].
  rewrite insert_insert_eq, (with_dragging_restores tr Hd).
  rewrite (insert_id _ _ _ Ht). now rewrite world_eta.
Qed.

(** X12. Whatever is dropped and whatever [recv_mime] does with the event,
    [dropEvent] changes no track and no frame and asks for no geometry
    change and no repaint.  When [recv_mime] finds a colormap, [dropEvent]
    returns, with the event as [recv_mime] left it, and does not ask for a
    track; when [recv_mime] finds no colormap and answers the question for a
    track, [dropEvent] raises [TypeError]; when [recv_mime] raises,
    [dropEvent] raises the same. *)
Theorem dropEvent_never_changes_items (w : world) (self : loc)
    (event : QGraphicsSceneDragDropEvent) :
  exists o w',
    dropEvent' self event w = (o, w') /\
    tracks w' = tracks w /\
    frame_items w' = frame_items w /\
    (forall e, e ∈ drop (length (trace w)) (trace w') ->
               exists msg, e = Log WARNING msg) /\
    (forall cmap event1,
       recv_mime event MIMETYPE_TIMELINE_COLORMAP = (Ret (Some cmap), event1) ->
       o = Ret event1 /\ trace w' = trace w ++ [log_colormap_stub]) /\
    (forall event1 r event2,
       recv_mime event MIMETYPE_TIMELINE_COLORMAP = (Ret None, event1) ->
       recv_mime event1 MIMETYPE_TIMELINE_TRACK = (Ret r, event2) ->
       o = Raise TypeError) /\
    (forall e event1,
       recv_mime event MIMETYPE_TIMELINE_COLORMAP = (Raise e, event1) ->
       o = Raise e) /\
    (forall event1 e event2,
       recv_mime event MIMETYPE_TIMELINE_COLORMAP = (Ret None, event1) ->
       recv_mime event1 MIMETYPE_TIMELINE_TRACK = (Raise e, event2) ->
       o = Raise e).
Proof.
  unfold dropEvent, call_recv_mime. unfold bind at 1.
  destruct (recv_mime event MIMETYPE_TIMELINE_COLORMAP)
    as [[[cmap|]|e] event1] eqn:Ec.
  - eexists. eexists. split; [reflexivity|].
    cbn [tracks frame_items trace]. do 2 (split; [reflexivity|]).
    split.
    { rewrite drop_app_length. intros x Hx.
      apply list_elem_of_singleton in Hx. subst x. eauto. }
    repeat split; intros; simplify_eq; congruence.
  - unfold bind at 1. unfold bind at 1.
    destruct (recv_mime event1 MIMETYPE_TIMELINE_TRACK)
      as [[[src|]|e] event2] eqn:Ek.
    + eexists. eexists. split; [reflexivity|].
      cbn [tracks frame_items trace]. do 2 (split; [reflexivity|]).
      split.
      { rewrite drop_app_length. intros x Hx.
        apply list_elem_of_singleton in Hx. subst x. eauto. }
      repeat split; intros; simplify_eq; congruence.
    + eexists. eexists. split; [reflexivity|].
      do 2 (split; [reflexivity|]).
      split.
      { rewrite drop_all. intros x Hx. now apply elem_of_nil in Hx. }
      repeat split; intros; simplify_eq; congruence.
    + eexists. eexists. split; [reflexivity|].
      do 2 (split; [reflexivity|]).
      split.
      { rewrite drop_all. intros x Hx. now apply elem_of_nil in Hx. }
      repeat split; intros; simplify_eq; congruence.
  - eexists. eexists. split; [reflexivity|].
    do 2 (split; [reflexivity|]).
    split.
    { rewrite drop_all. intros x Hx. now apply elem_of_nil in Hx. }
    repeat split; intros; simplify_eq; congruence.
Qed.

End MoreDragDropFacts.

Lemma dragEnter_then_dragLeave_restores_witness :
  exists event1 w1,
    dragEnterEvent kind_colormap kind_track 0%nat (demo_event kind_colormap)
      demo_world = (Ret event1, w1) /\
    dragLeaveEvent 0%nat event1 w1 = (Ret event1, demo_world).
Proof.
  destruct (dragEnter_then_dragLeave_restores kind_colormap kind_track
              demo_world 0%nat _ (demo_event kind_colormap) demo_track0 eq_refl)
    as (event1 & w1 & H1 & _ & H2).
  exists event1, w1. auto.
Defined.

Lemma dropEvent_never_changes_items_witness :
  exists w',
    dropEvent kind_colormap kind_track (list Byte.byte) recv_raw loads_raw 0%nat
      (mkDragDropEvent
         (mkMimeData (<[kind_colormap := []]> {[kind_track := []]})) false)
      demo_world
    = (Ret (mkDragDropEvent
              (mkMimeData (<[kind_colormap := []]> {[kind_track := []]})) true),
       w') /\
    tracks w' = tracks demo_world /\
    trace w' = [log_colormap_stub].
Proof.
  destruct (dropEvent_never_changes_items kind_colormap kind_track
              (list Byte.byte) recv_raw loads_raw demo_world 0%nat
              (mkDragDropEvent
                 (mkMimeData (<[kind_colormap := []]> {[kind_track := []]}))
                 false))
    as (o & w' & Hrun & Htr & _ & _ & Hyes & _).
  destruct (Hyes [] (mkDragDropEvent
                       (mkMimeData (<[kind_colormap := []]> {[kind_track := []]}))
                       true) eq_refl) as [-> Htrace].
  exists w'. auto.
Defined.

(** ** Construction of a frame *)

Lemma modify_track_run w l tr g :
  tracks w !! l = Some tr ->
  modify_track l g w
  = (Ret tt, mkWorld (<[l := g tr]> (tracks w)) (frame_items w) (trace w)).
Proof.
  intros Ht. unfold modify_track, bind, get_track, put_track. now rewrite Ht.
Qed.

Lemma new_frame_is_new w :
  frame_items w !! fresh (dom (frame_items w)) = None.
Proof. apply not_elem_of_dom, is_fresh. Qed.

Lemma resolves_insert_new w trs es ls fs l f :
  frame_items w !! l = None ->
  resolves w ls fs ->
  resolves (mkWorld trs (<[l := f]> (frame_items w)) es) ls fs.
Proof.
  intros Hnew R. induction R as [|k g ls fs Hk _ IH]; constructor; [|exact IH].
  cbn. rewrite lookup_insert_ne; [exact Hk|]. intros ->. congruence.
Qed.

Lemma resolves_populated w ls fs : resolves w ls fs -> populated w ls.
Proof.
  intros R. induction R as [|k g ls fs Hk _ IH]; constructor; eauto.
Qed.

Lemma resolves_lookup w ls fs l :
  resolves w ls fs -> l ∈ ls -> exists f, f ∈ fs /\ frame_items w !! l = Some f.
Proof.
  intros R. induction R as [|k g ls fs Hk _ IH]; intros Hl.
  - now apply elem_of_nil in Hl.
  - apply elem_of_cons in Hl as [->|Hl].
    + exists g. split; [apply list_elem_of_here|exact Hk].
    + destruct (IH Hl) as (f & Hf & Hlf). exists f.
      split; [now apply list_elem_of_further|exact Hlf].
Qed.

Lemma snoc_is_cons {A} (l : list A) (x : A) : exists y l', l ++ [x] = y :: l'.
Proof. destruct l; cbn; eauto. Qed.

Section ConstructionFacts.

Variable DEFAULT_TRACK_HEIGHT : float.
Variable DEFAULT_FRAME_HEIGHT : float.
Variable calc_pixel_x_pos :
  TimelineCoordTransform -> datetime -> option timedelta -> float * float.
Variable calc_pixel_duration : TimelineCoordTransform -> timedelta -> float.
Variable QRectF_ne : QRectF -> QRectF -> bool.

Local Abbreviation QFrameItem_init' :=
  (QFrameItem_init DEFAULT_TRACK_HEIGHT DEFAULT_FRAME_HEIGHT calc_pixel_x_pos
     calc_pixel_duration QRectF_ne).
Local Abbreviation laid_out' := (laid_out DEFAULT_TRACK_HEIGHT calc_pixel_x_pos).
Local Abbreviation placed' := (placed calc_pixel_x_pos).

Lemma QFrameItem_init_run w track tr fs scale uuid start duration st title subtitle :
  tracks w !! track = Some tr ->
  resolves w (QTrackItem.frames tr) fs ->
  Forall frame_fits fs ->
  QTrackItem._left_pad <= start <= datetime_max ->
  0 <= start + duration <= datetime_max ->
  lane_fits (QTrackItem._z tr) ->
  exists self w' t d r,
    QFrameItem_init' track scale uuid start duration st title subtitle w
    = (Ret self, w') /\
    frame_items w !! self = None /\
    r = (if QRectF_ne
              (mkQRectF 0%float (- DEFAULT_FRAME_HEIGHT / 2)%float
                 (calc_pixel_duration scale duration) DEFAULT_FRAME_HEIGHT)
              QRectF_null
         then mkQRectF 0%float (- DEFAULT_FRAME_HEIGHT / 2)%float
                (calc_pixel_duration scale duration) DEFAULT_FRAME_HEIGHT
         else QRectF_null) /\
    is_min_of t (starts fs ++ [start]) /\
    is_max_of (t + d) (ends fs ++ [start + duration]) /\
    tracks w'
    = <[track := laid_out'
                   (QTrackItem_with_frames (QTrackItem.frames tr ++ [self]) tr)
                   t d]> (tracks w) /\
    frame_items w' !! self
    = Some (placed'
              (laid_out'
                 (QTrackItem_with_frames (QTrackItem.frames tr ++ [self]) tr) t d)
              (QFrameItem.mk st track scale uuid start duration title subtitle
                 r QPointF_origin)) /\
    (forall l f, l ∈ QTrackItem.frames tr -> frame_items w !! l = Some f ->
       frame_items w' !! l
       = Some (placed'
                 (laid_out'
                    (QTrackItem_with_frames (QTrackItem.frames tr ++ [self]) tr)
                    t d) f)) /\
    (forall l, l ∉ QTrackItem.frames tr -> l <> self ->
               frame_items w' !! l = frame_items w !! l) /\
    fst (time_extent_of_frames track w') = Ret (Some t, Some d).
Proof.
  intros Ht R Hfit Hstart Hend Hz.
  pose proof (new_frame_is_new w) as Hnew.
  set (self := fresh (dom (frame_items w))) in *.
  set (f0 := QFrameItem.mk st track scale uuid start duration title subtitle
               QRectF_null QPointF_origin).
  set (fb := frame_bounds_for DEFAULT_FRAME_HEIGHT calc_pixel_duration f0).
  set (r := if QRectF_ne fb QRectF_null then fb else QRectF_null).
  set (f1 := QFrameItem.with_bounds r f0).
  set (tr1 := QTrackItem_with_frames (QTrackItem.frames tr ++ [self]) tr).
  set (w1 := mkWorld (<[track := tr1]> (tracks w)) (<[self := f0]> (frame_items w))
               (trace w)).
  set (w2 := mkWorld (<[track := tr1]> (tracks w)) (<[self := f1]> (frame_items w))
               (trace w ++ log_frame_width
                  :: (if QRectF_ne fb QRectF_null
                      then [PrepareGeometryChange (FrameItem self)] else []))).
  assert (update_bounds DEFAULT_FRAME_HEIGHT calc_pixel_duration QRectF_ne self w1
          = (Ret tt, w2)) as Hub.
  { rewrite (update_bounds_run _ _ _ w1 self f0) by (cbn; apply lookup_insert_eq).
    unfold w2, f1, r, fb, frame_bounds_for. cbn [QFrameItem._bounds f0].
    destruct (QRectF_ne _ QRectF_null); cbn [w1 tracks frame_items trace add_trace].
    - now rewrite insert_insert_eq.
    - reflexivity. }
  destruct (snoc_is_cons fs f1) as (g & gs & Hgs).
  assert (tracks w2 !! track = Some tr1) as Ht2 by apply lookup_insert_eq.
  assert (resolves w2 (QTrackItem.frames tr1) (g :: gs)) as R2.
  { rewrite <- Hgs. apply Forall2_app.
    - now apply resolves_insert_new.
    - constructor; [cbn; apply lookup_insert_eq|constructor]. }
  assert (Forall frame_fits (g :: gs)) as Hfit2.
  { rewrite <- Hgs. apply Forall_app. split; [exact Hfit|].
    constructor; [|constructor]. split; [exact Hstart|exact Hend]. }
  set (t := fst (extent_of g gs)).
  set (d := snd (extent_of g gs) - t).
  pose proof (update_pos_bounds_run DEFAULT_TRACK_HEIGHT calc_pixel_x_pos
                w2 track tr1 g gs Ht2 R2 Hfit2 Hz) as Hup.
  fold t d in Hup.
  set (tr3 := laid_out' tr1 t d) in *.
  set (w3 := mkWorld (<[track := tr3]> (tracks w2)) (frame_items w2)
               (trace w2 ++ [PrepareGeometryChange (TrackItem track)])) in *.
  assert (tracks w3 !! track = Some tr3) as Ht3 by apply lookup_insert_eq.
  assert (resolves w3 (QTrackItem.frames tr3) (g :: gs)) as R3 by exact R2.
  destruct (update_frame_positions_run calc_pixel_x_pos w3 track tr3 [] Ht3
              (resolves_populated _ _ _ R3))
    as (w4 & Hrun4 & Htr4 & _ & Hin4 & Hout4).
  cbn [frames_to_place] in Hin4, Hout4.
  exists self, w4, t, d, r.
  split.
  { unfold QFrameItem_init. unfold bind at 1. unfold new_frame.
    fold self. fold f0.
    run_with (modify_track_run
                (mkWorld (tracks w) (<[self := f0]> (frame_items w)) (trace w))
                track tr
                (fun tr0 => QTrackItem_with_frames (QTrackItem.frames tr0 ++ [self]) tr0)
                Ht).
    fold tr1. fold w1.
    run_with Hub. run_with Hup. run_with Hrun4. reflexivity. }
  split; [exact Hnew|].
  split; [reflexivity|].
  destruct (extent_of_min_max g gs) as [Hmin Hmax].
  rewrite <- Hgs in Hmin, Hmax. unfold starts, ends in Hmin, Hmax.
  rewrite map_app in Hmin, Hmax. cbn [map f1 f0 QFrameItem.with_bounds
    QFrameItem._start QFrameItem._duration] in Hmin, Hmax.
  split; [exact Hmin|].
  split; [replace (t + d) with (snd (extent_of g gs)) by (unfold d; lia); exact Hmax|].
  split; [rewrite Htr4; cbn [w3 w2 tracks]; now rewrite insert_insert_eq|].
  split.
  { apply Hin4; [apply elem_of_app; right; apply list_elem_of_here|].
    cbn. apply lookup_insert_eq. }
  split.
  { intros l f Hl Hf. apply Hin4; [apply elem_of_app; now left|].
    cbn. rewrite lookup_insert_ne; [exact Hf|]. intros <-. congruence. }
  split.
  { intros l Hl Hne. rewrite Hout4.
    - cbn. now rewrite lookup_insert_ne.
    - intros Hin. apply elem_of_app in Hin as [Hin|Hin]; [contradiction|].
      apply list_elem_of_singleton in Hin. contradiction. }
  rewrite (time_extent_same_td track w3 w4 Htr4).
  - now rewrite (time_extent_nonempty w3 track tr3 g gs Ht3 R3
                   (frames_fit_ends _ Hfit2)).
  - intros l. destruct (decide (l ∈ QTrackItem.frames tr3)) as [Hl|Hl].
    + destruct (resolves_lookup _ _ _ l R3 Hl) as (f & _ & Hf).
      rewrite (Hin4 l f Hl Hf), Hf. reflexivity.
    + now rewrite (Hout4 l Hl).
Qed.

(** X13. Constructing a frame whose times fit, on a track whose frames fit
    and whose lane converts to a double, gives a new object and puts it last
    in the frames of its track.  The new frame carries the track, the times
    and the state it was constructed with, and the bounds computed from its
    duration if [!=] tells them from the null rectangle, the null rectangle
    if not.  The other tracks and the frames of other tracks are untouched,
    and the frames the track had keep their times, state and bounds. *)
Theorem QFrameItem_init_registers_frame (w : world) (track : loc)
    (tr : QTrackItem.t) (fs : list QFrameItem.t)
    (scale : TimelineCoordTransform) (uuid : UUID) (start : datetime)
    (duration : timedelta) (st : TimelineFrameState) (title : string)
    (subtitle : option string) :
  tracks w !! track = Some tr ->
  resolves w (QTrackItem.frames tr) fs ->
  Forall frame_fits fs ->
  QTrackItem._left_pad <= start <= datetime_max ->
  0 <= start + duration <= datetime_max ->
  lane_fits (QTrackItem._z tr) ->
  exists self w' tr' fnew,
    QFrameItem_init' track scale uuid start duration st title subtitle w
    = (Ret self, w') /\
    frame_items w !! self = None /\
    tracks w' !! track = Some tr' /\
    QTrackItem.frames tr' = QTrackItem.frames tr ++ [self] /\
    QTrackItem._z tr' = QTrackItem._z tr /\
    QTrackItem._dragging tr' = QTrackItem._dragging tr /\
    frame_items w' !! self = Some fnew /\
    QFrameItem._track fnew = track /\
    QFrameItem.td fnew = (start, duration) /\
    QFrameItem._state fnew = st /\
    QFrameItem._uuid fnew = uuid /\
    QFrameItem._bounds fnew
    = (if QRectF_ne
            (frame_bounds_for DEFAULT_FRAME_HEIGHT calc_pixel_duration fnew)
            QRectF_null
       then frame_bounds_for DEFAULT_FRAME_HEIGHT calc_pixel_duration fnew
       else QRectF_null) /\
    (forall l, l <> track -> tracks w' !! l = tracks w !! l) /\
    (forall l, l ∉ QTrackItem.frames tr -> l <> self ->
               frame_items w' !! l = frame_items w !! l) /\
    (forall l f, l ∈ QTrackItem.frames tr -> frame_items w !! l = Some f ->
       exists f', frame_items w' !! l = Some f' /\
                  QFrameItem.td f' = QFrameItem.td f /\
                  QFrameItem._state f' = QFrameItem._state f /\
                  QFrameItem._bounds f' = QFrameItem._bounds f).
Proof.
  intros Ht R Hfit Hstart Hend Hz.
  destruct (QFrameItem_init_run w track tr fs scale uuid start duration st
              title subtitle Ht R Hfit Hstart Hend Hz)
    as (self & w' & t & d & r & Hrun & Hnew & Hr & _ & _ & Htr & Hself & Hold
        & Hother & _).
  exists self, w'. eexists. eexists.
  split; [exact Hrun|]. split; [exact Hnew|].
  split; [rewrite Htr; apply lookup_insert_eq|].
  do 3 (split; [reflexivity|]).
  split; [exact Hself|]. do 4 (split; [reflexivity|]).
  split; [cbn; unfold frame_bounds_for; cbn; exact Hr|].
  split; [intros l Hl; rewrite Htr; now rewrite lookup_insert_ne|].
  split; [exact Hother|].
  intros l f Hl Hf. eexists. split; [apply (Hold l f Hl Hf)|].
  repeat split.
Qed.

(** X14. Constructing a frame whose times fit, on a track whose frames fit
    and whose lane converts to a double, leaves the track laid out for all
    its frames, the new one included.  The extent [(t, d)] of the track then covers the
    new frame and every frame the track had; the track has the position and
    the bounds that [update_pos_bounds] derives from that extent; and every
    frame of the track sits at [calc_pixel_x_pos(frame.t).x] less the x
    position of the track, at height [0]. *)
Theorem QFrameItem_init_lays_out_track (w : world) (track : loc)
    (tr : QTrackItem.t) (fs : list QFrameItem.t)
    (scale : TimelineCoordTransform) (uuid : UUID) (start : datetime)
    (duration : timedelta) (st : TimelineFrameState) (title : string)
    (subtitle : option string) :
  tracks w !! track = Some tr ->
  resolves w (QTrackItem.frames tr) fs ->
  Forall frame_fits fs ->
  QTrackItem._left_pad <= start <= datetime_max ->
  0 <= start + duration <= datetime_max ->
  lane_fits (QTrackItem._z tr) ->
  exists self w' tr' t d,
    QFrameItem_init' track scale uuid start duration st title subtitle w
    = (Ret self, w') /\
    tracks w' !! track = Some tr' /\
    fst (time_extent_of_frames track w') = Ret (Some t, Some d) /\
    t <= start /\ start + duration <= t + d /\
    (forall f, f ∈ fs -> t <= QFrameItem._start f /\ frame_end f <= t + d) /\
    QTrackItem.pos tr' = anchor_for DEFAULT_TRACK_HEIGHT calc_pixel_x_pos tr t d /\
    QTrackItem._bounds tr' = bounds_for DEFAULT_TRACK_HEIGHT calc_pixel_x_pos tr t d /\
    forall l, l ∈ QTrackItem.frames tr' ->
      exists f',
        frame_items w' !! l = Some f' /\
        QFrameItem.pos f'
        = mkQPointF
            (fst (calc_pixel_x_pos (QTrackItem._scale tr) (QFrameItem.t_ f') None)
             - px (QTrackItem.pos tr'))%float
            0%float.
Proof.
  intros Ht R Hfit Hstart Hend Hz.
  destruct (QFrameItem_init_run w track tr fs scale uuid start duration st
              title subtitle Ht R Hfit Hstart Hend Hz)
    as (self & w' & t & d & r & Hrun & Hnew & _ & [_ Hmin] & [_ Hmax] & Htr
        & Hself & Hold & _ & Hext).
  exists self, w'. eexists. exists t, d.
  split; [exact Hrun|].
  split; [rewrite Htr; apply lookup_insert_eq|].
  split; [exact Hext|].
  split; [apply Hmin, elem_of_app; right; apply list_elem_of_here|].
  split; [apply Hmax, elem_of_app; right; apply list_elem_of_here|].
  split.
  { intros f Hf. split.
    - apply Hmin, elem_of_app. left. now apply elem_of_map_1.
    - apply Hmax, elem_of_app. left.
      apply (elem_of_map_1
               (fun f => QFrameItem._start f + QFrameItem._duration f) _ _ Hf). }
  do 2 (split; [reflexivity|]).
  intros l Hl. cbn in Hl. apply elem_of_app in Hl as [Hl|Hl].
  - destruct (resolves_lookup _ _ _ l R Hl) as (f & _ & Hf).
    eexists. split; [apply (Hold l f Hl Hf)|reflexivity].
  - apply list_elem_of_singleton in Hl. subst l.
    eexists. split; [exact Hself|reflexivity].
Qed.

End ConstructionFacts.

Lemma demo_new_frame_fits :
  (QTrackItem._left_pad <= demo_origin + seconds 2 <= datetime_max) /\
  (0 <= demo_origin + seconds 2 + seconds 50 <= datetime_max).
Proof. vm_compute. repeat split; discriminate. Defined.

Lemma QFrameItem_init_registers_frame_witness :
  exists w' tr',
    QFrameItem_init 48 40 demo_calc_pixel_x_pos demo_calc_pixel_duration
      QRectF_ne_exact 0%nat demo_scale 5%N (demo_origin + seconds 2) (seconds 50)
      READY "new" None demo_world
    = (Ret 2%nat, w') /\
    tracks w' !! 0%nat = Some tr' /\
    QTrackItem.frames tr' = [0%nat; 1%nat; 2%nat].
Proof.
  destruct (QFrameItem_init_registers_frame 48 40 demo_calc_pixel_x_pos
              demo_calc_pixel_duration QRectF_ne_exact demo_world 0%nat _ _
              demo_scale 5%N (demo_origin + seconds 2) (seconds 50) READY "new"
              None demo_track0 demo_frames_resolve demo_frames_fit
              (proj1 demo_new_frame_fits) (proj2 demo_new_frame_fits)
              demo_lane_fits)
    as (self & w' & tr' & fnew & Hrun & _ & Htr & Hfr & _).
  assert (self = 2%nat) as ->.
  { apply (f_equal fst) in Hrun. vm_compute in Hrun. now injection Hrun as <-. }
  exists w', tr'. auto.
Defined.

Lemma QFrameItem_init_lays_out_track_witness :
  exists self w' t d,
    QFrameItem_init 48 40 demo_calc_pixel_x_pos demo_calc_pixel_duration
      QRectF_ne_exact 0%nat demo_scale 5%N (demo_origin + seconds 2) (seconds 50)
      READY "new" None demo_world
    = (Ret self, w') /\
    fst (time_extent_of_frames 0%nat w') = Ret (Some t, Some d) /\
    t <= demo_origin + seconds 2 /\
    demo_origin + seconds 2 + seconds 50 <= t + d.
Proof.
  destruct (QFrameItem_init_lays_out_track 48 40 demo_calc_pixel_x_pos
              demo_calc_pixel_duration QRectF_ne_exact demo_world 0%nat _ _
              demo_scale 5%N (demo_origin + seconds 2) (seconds 50) READY "new"
              None demo_track0 demo_frames_resolve demo_frames_fit
              (proj1 demo_new_frame_fits) (proj2 demo_new_frame_fits)
              demo_lane_fits)
    as (self & w' & tr' & t & d & Hrun & _ & Hext & H1 & H2 & _).
  exists self, w', t, d. auto.
Defined.
